(** * dithering-g: the timed parts of the demo page

    A shallow embedding of [src/App.tsx] and [src/Helmet.tsx]:

    - [DemoName]: the icon's glitch animation, a chain of [setTimeout]
      callbacks run by the browser's single-threaded event loop;
    - [App]: the responsive model scale and the renderer's clear color;
    - [Helmet]: the search for the first mesh of the loaded asset.

    JavaScript numbers are IEEE 754 binary64 values, here Rocq's primitive
    [float]; a timer delay is what [setTimeout] makes of its argument, a whole
    number of milliseconds. *)

From Stdlib Require Import ZArith List Bool Lia Floats String.
Import ListNotations.

Set Warnings "-inexact-float".

Local Open Scope Z_scope.

(** ** JavaScript numbers as timer delays *)

Module Number.

(** ToInt32: wrap an integer into the signed 32-bit range. *)
Definition toInt32 (z : Z) : Z := (z + 2 ^ 31) mod 2 ^ 32 - 2 ^ 31.

(** The [long] a number converts to when it is passed as the [timeout]
    argument of [window.setTimeout]: the number truncated toward zero and
    wrapped; NaN and the infinities give 0. *)
Definition toLong (x : float) : Z :=
  match Prim2SF x with
  | S754_finite s m e =>
      let a := Z.shiftl (Z.pos m) e in
      toInt32 (if s then - a else a)
  | _ => 0
  end.

End Number.

(** ** Rounding in binary64

    Facts on the format's multiplication and addition as the Standard Library
    specifies them ([SF64mul], [SF64add]), as far as the idle wait of the
    animator needs them. *)

Module Binary64.

(** What [k] right shifts make of the mantissa [m0]: the quotient, and no
    lost bit flagged when none was lost. *)
Definition Shifted (m0 k : Z) (mrs : shr_record) : Prop :=
  shr_m mrs = m0 / 2 ^ k /\
  (m0 mod 2 ^ k = 0 -> shr_r mrs = false /\ shr_s mrs = false).

(** The shape of a rounded result that is neither an infinity nor a NaN. *)
Definition finite_or_zero (m e : Z) : spec_float :=
  match m with
  | Z0 => S754_zero false
  | Z.pos p => S754_finite false p e
  | Z.neg _ => S754_nan
  end.

(** The constants of the idle wait, in the format. *)
Definition k1 : spec_float := S754_finite false 4503599627370496 (-52).
Definition k1000 : spec_float := S754_finite false 8796093022208000 (-43).
Definition k1500 : spec_float := S754_finite false 6597069766656000 (-42).
Definition k2500 : spec_float := S754_finite false 5497558138880000 (-41).

Lemma Shifted_shr_1 (m0 k : Z) (mrs : shr_record) :
  0 <= m0 -> 0 <= k -> Shifted m0 k mrs -> Shifted m0 (k + 1) (shr_1 mrs).
Proof.
  intros Hm0 Hk [Hq Hr].
  assert (Hpow : 2 ^ (k + 1) = 2 ^ k * 2) by (rewrite Z.pow_add_r; lia).
  assert (Hpos : 0 < 2 ^ k) by (apply Z.pow_pos_nonneg; lia).
  assert (Hq0 : 0 <= m0 / 2 ^ k) by (apply Z.div_pos; lia).
  destruct mrs as [m r s]. cbn [shr_m shr_r shr_s] in *. subst m.
  set (q := m0 / 2 ^ k) in *.
  assert (Hm0eq : m0 = 2 ^ k * q + m0 mod 2 ^ k) by (apply Z.div_mod; lia).
  pose proof (Z.mod_pos_bound m0 (2 ^ k) Hpos) as Hb.
  split.
  - rewrite Hpow, <- Z.div_div by lia. fold q.
    destruct q as [|[p|p|]|p]; cbn [shr_1 shr_m];
      [ reflexivity
      | apply (Z.div_unique _ _ _ 1); lia
      | apply (Z.div_unique _ _ _ 0); lia
      | reflexivity
      | lia ].
  - intros Hmod.
    assert (H2 : m0 = 2 ^ k * 2 * (m0 / (2 ^ k * 2)))
      by (rewrite Hpow in Hmod; apply Z.div_exact; lia).
    assert (Hmk : m0 mod 2 ^ k = 0).
    { apply Z.mod_divide; [lia|]. exists (2 * (m0 / (2 ^ k * 2))). lia. }
    destruct (Hr Hmk) as [-> ->].
    assert (Hq2 : q = 2 * (m0 / (2 ^ k * 2))) by nia.
    destruct q as [|[p|p|]|p]; cbn [shr_1 shr_r shr_s orb]; try lia;
      split; reflexivity.
Qed.

Lemma Shifted_iter (m0 : Z) (p : positive) :
  0 <= m0 ->
  forall k mrs, 0 <= k -> Shifted m0 k mrs ->
    Shifted m0 (k + Z.pos p) (iter_pos shr_1 p mrs).
Proof.
  intros Hm0. induction p as [p IH | p IH |]; intros k mrs Hk Hs; cbn [iter_pos].
  - replace (k + Z.pos p~1) with (((k + 1) + Z.pos p) + Z.pos p) by lia.
    apply IH; [lia|]. apply IH; [lia|]. now apply Shifted_shr_1.
  - replace (k + Z.pos p~0) with ((k + Z.pos p) + Z.pos p) by lia.
    apply IH; [lia|]. now apply IH.
  - now apply Shifted_shr_1.
Qed.

Lemma shr_spec (m e n : Z) :
  0 <= m ->
  snd (shr {| shr_m := m; shr_r := false; shr_s := false |} e n)
  = e + Z.max 0 n /\
  Shifted m (Z.max 0 n)
          (fst (shr {| shr_m := m; shr_r := false; shr_s := false |} e n)).
Proof.
  intros Hm.
  assert (H0 : Shifted m 0 {| shr_m := m; shr_r := false; shr_s := false |}).
  { split; cbn; [now rewrite Z.div_1_r | auto]. }
  destruct n as [|p|p]; cbn [shr fst snd].
  - split; [lia | exact H0].
  - split; [lia|]. replace (Z.max 0 (Z.pos p)) with (0 + Z.pos p) by lia.
    apply Shifted_iter; [exact Hm | lia | exact H0].
  - split; [lia | exact H0].
Qed.

Lemma round_nearest_even_bounds (mrs : shr_record) :
  shr_m mrs
  <= round_nearest_even (shr_m mrs) (loc_of_shr_record mrs)
  <= shr_m mrs + 1 /\
  (shr_r mrs = false -> shr_s mrs = false ->
   round_nearest_even (shr_m mrs) (loc_of_shr_record mrs) = shr_m mrs).
Proof.
  destruct mrs as [m [|] [|]]; cbn; try destruct (Z.even m);
    split; try lia; try discriminate; reflexivity.
Qed.

Lemma digits2_size (p : positive) : digits2_pos p = Pos.size p.
Proof. induction p; cbn; congruence. Qed.

Lemma digits2_bounds (p : positive) :
  2 ^ (Z.pos (digits2_pos p) - 1) <= Z.pos p < 2 ^ Z.pos (digits2_pos p).
Proof.
  rewrite digits2_size.
  pose proof (Pos.size_gt p) as Hgt. pose proof (Pos.size_le p) as Hle.
  apply Pos2Z.pos_lt_pos in Hgt. apply Pos2Z.pos_le_pos in Hle.
  rewrite Pos2Z.inj_pow in Hgt, Hle.
  change (Z.pos p~0) with (2 * Z.pos p) in Hle.
  replace (Z.pos (Pos.size p)) with ((Z.pos (Pos.size p) - 1) + 1) in Hle at 1
    by lia.
  rewrite Z.pow_add_r in Hle by lia. lia.
Qed.

Lemma Zdigits2_le (a k : Z) : 0 <= k -> 0 <= a < 2 ^ k -> Zdigits2 a <= k.
Proof.
  intros Hk [Ha Hlt]. destruct a as [|p|p]; cbn [Zdigits2]; [lia| |lia].
  destruct (Z.le_gt_cases (Z.pos (digits2_pos p)) k) as [|Hgt]; [assumption|].
  pose proof (digits2_bounds p) as [Hlo _].
  assert (2 ^ k <= 2 ^ (Z.pos (digits2_pos p) - 1))
    by (apply Z.pow_le_mono_r; lia).
  lia.
Qed.

(** Rounding an exact positive value [M * 2^E] to binary64: the result
    [m2 * 2^e2] is less than one unit of its last place away, and its
    exponent is the one the format gives to a value of so many digits. *)
Lemma binary_round_aux_spec (M : positive) (E : Z) :
  exists m2 e2 : Z,
    binary_round_aux prec emax false (Z.pos M) E loc_Exact
    = match m2 with
      | Z0 => S754_zero false
      | Z.pos m =>
          if e2 <=? emax - prec then S754_finite false m e2
          else S754_infinity false
      | Z.neg _ => S754_nan
      end /\
    0 <= m2 /\ E <= e2 /\
    e2 <= Z.max E (fexp prec emax (Z.pos (digits2_pos M) + E + 1)) /\
    (m2 - 1) * 2 ^ (e2 - E) < Z.pos M < (m2 + 1) * 2 ^ (e2 - E).
Proof.
  unfold binary_round_aux, shr_fexp. cbn [Zdigits2 shr_record_of_loc].
  set (d := Z.pos (digits2_pos M)).
  set (n1' := fexp prec emax (d + E) - E).
  destruct (shr_spec (Z.pos M) E n1') as [He1 [Hq1 Hx1]]; [lia|].
  destruct (shr {| shr_m := Z.pos M; shr_r := false; shr_s := false |} E n1')
    as [mrs1 e1]. cbn [fst snd] in He1, Hq1, Hx1.
  destruct (round_nearest_even_bounds mrs1) as [Hr Hrx].
  set (mr := round_nearest_even (shr_m mrs1) (loc_of_shr_record mrs1)) in *.
  set (n1 := Z.max 0 n1') in *.
  assert (HX : 0 < 2 ^ n1) by (apply Z.pow_pos_nonneg; lia).
  assert (Hq0 : 0 <= Z.pos M / 2 ^ n1) by (apply Z.div_pos; lia).
  assert (Hmr0 : 0 <= mr) by lia.
  set (n2' := fexp prec emax (Zdigits2 mr + e1) - e1).
  destruct (shr_spec mr e1 n2') as [He2 [Hq2 _]]; [exact Hmr0|].
  destruct (shr {| shr_m := mr; shr_r := false; shr_s := false |} e1 n2')
    as [mrs2 e2]. cbn [fst snd] in He2, Hq2.
  set (n2 := Z.max 0 n2') in *.
  assert (HY : 0 < 2 ^ n2) by (apply Z.pow_pos_nonneg; lia).
  exists (shr_m mrs2), e2.
  split; [reflexivity|].
  pose proof (Z.div_mod (Z.pos M) (2 ^ n1) ltac:(lia)) as HM.
  pose proof (Z.mod_pos_bound (Z.pos M) (2 ^ n1) HX) as HMb.
  pose proof (Z.div_mod mr (2 ^ n2) ltac:(lia)) as Hm.
  pose proof (Z.mod_pos_bound mr (2 ^ n2) HY) as Hmb.
  rewrite <- Hq1 in HM. rewrite <- Hq2 in Hm.
  set (q := shr_m mrs1) in *. set (m2 := shr_m mrs2) in *.
  set (r1 := Z.pos M mod 2 ^ n1) in *. set (r2 := mr mod 2 ^ n2) in *.
  assert (Hexact : r1 = 0 -> mr = q)
    by (intros H0; destruct (Hx1 H0); now apply Hrx).
  split; [rewrite Hq2; apply Z.div_pos; lia|].
  split; [lia|].
  split.
  - (* the exponent *)
    pose proof (digits2_bounds M) as [_ Hd]. fold d in Hd.
    assert (Hd1 : 1 <= d) by (unfold d; lia).
    destruct (Z.le_gt_cases n1' 0) as [Hn | Hn].
    + (* no shift: the value is exact *)
      assert (n1 = 0) as Hn1 by (unfold n1; lia).
      assert (r1 = 0) as Hr1
        by (unfold r1; rewrite Hn1; apply Z.mod_1_r).
      assert (mr = Z.pos M) as Hmr.
      { rewrite (Hexact Hr1), Hq1, Hn1. apply Z.div_1_r. }
      assert (Zdigits2 mr = d) as Hdg by (rewrite Hmr; reflexivity).
      unfold n2, n2' in He2. rewrite Hdg in He2.
      unfold n1' in Hn. unfold fexp, SpecFloat.emin, prec, emax in *. lia.
    + assert (Hdg : Zdigits2 mr <= Z.max 1 (d - n1 + 1)).
      { apply Zdigits2_le; [lia|]. split; [exact Hmr0|].
        destruct (Z.le_gt_cases n1 d) as [Hle | Hgt].
        - assert (q < 2 ^ (d - n1)).
          { rewrite Hq1. apply Z.div_lt_upper_bound; [lia|].
            rewrite <- Z.pow_add_r by lia.
            replace (n1 + (d - n1)) with d by lia. exact Hd. }
          replace (Z.max 1 (d - n1 + 1)) with ((d - n1) + 1) by lia.
          rewrite Z.pow_add_r by lia. lia.
        - assert (q = 0).
          { rewrite Hq1. apply Z.div_small. split; [lia|].
            assert (2 ^ d <= 2 ^ n1) by (apply Z.pow_le_mono_r; lia). lia. }
          replace (Z.max 1 (d - n1 + 1)) with 1 by lia.
          change (2 ^ 1) with 2. lia. }
      assert (Hdg0 : 0 <= Zdigits2 mr)
        by (destruct mr; cbn; lia).
      unfold n2, n2' in He2. unfold n1, n1' in *.
      unfold fexp, SpecFloat.emin, prec, emax in *. lia.
  - (* the mantissa *)
    replace (e2 - E) with (n1 + n2) by lia.
    rewrite Z.pow_add_r by lia.
    set (X := 2 ^ n1) in *. set (Y := 2 ^ n2) in *.
    split.
    + destruct (Z.eq_dec r1 0) as [H0 | Hn0].
      * rewrite (Hexact H0) in Hm. nia.
      * assert (X * (Y * m2 - Y) <= X * (mr - 1)) by nia. nia.
    + assert (mr + 1 <= Y * (m2 + 1)) by nia.
      assert (Z.pos M < X * (mr + 1)) by nia. nia.
Qed.

Lemma constants :
  Prim2SF 0 = S754_zero false /\ Prim2SF 1 = k1 /\
  Prim2SF (2500 - 1500) = k1000 /\ Prim2SF 1500 = k1500 /\
  Prim2SF 2500 = k2500.
Proof. repeat split; vm_compute; reflexivity. Qed.

Lemma pow2_pos (a : Z) : 0 <= a -> 0 < 2 ^ a.
Proof. intros. apply Z.pow_pos_nonneg; lia. Qed.

Lemma pow2_lt_inv (a b : Z) : 0 <= b -> 2 ^ a < 2 ^ b -> a < b.
Proof. intros Hb H. apply (Z.pow_lt_mono_r_iff 2); [lia | exact Hb | exact H]. Qed.

Lemma iter_xO (p d : positive) :
  Z.pos (Pos.iter xO p d) = Z.pos p * 2 ^ Z.pos d.
Proof.
  induction d as [|d IH] using Pos.peano_ind.
  - cbn [Pos.iter]. rewrite Pos2Z.inj_xO. change (2 ^ 1) with 2. lia.
  - rewrite Pos.iter_succ, Pos2Z.inj_xO, IH, Pos2Z.inj_succ.
    unfold Z.succ. rewrite Z.pow_add_r by lia. change (2 ^ 1) with 2. lia.
Qed.

Lemma shl_align_spec (mx : positive) (ex ex' : Z) :
  snd (shl_align mx ex ex') = Z.min ex ex' /\
  Z.pos (fst (shl_align mx ex ex'))
  = Z.pos mx * 2 ^ (ex - snd (shl_align mx ex ex')).
Proof.
  unfold shl_align. destruct (ex' - ex) as [|d|d] eqn:Ed; cbn [fst snd].
  - split; [lia|]. rewrite Z.sub_diag. cbn. lia.
  - split; [lia|]. rewrite Z.sub_diag. cbn. lia.
  - split; [lia|]. rewrite iter_xO. f_equal. f_equal. lia.
Qed.

Lemma canonical_digits (m : positive) (e : Z) :
  canonical_mantissa prec emax m e = true ->
  Z.pos (digits2_pos m) <= 53 /\
  (-1074 < e -> Z.pos (digits2_pos m) = 53).
Proof.
  unfold canonical_mantissa, fexp, SpecFloat.emin, prec, emax.
  intros H. apply Z.eqb_eq in H. lia.
Qed.

(** A number of the format below 1. *)
Lemma lt_one_spec (m : positive) (e : Z) :
  bounded prec emax m e = true ->
  SFltb (S754_finite false m e) k1 = true ->
  e <= -52 /\ Z.pos m < 2 ^ (- e).
Proof.
  unfold bounded. intros Hb. apply andb_prop in Hb as [Hc _].
  destruct (canonical_digits m e Hc) as [Hd _].
  pose proof (digits2_bounds m) as [_ Hm].
  unfold SFltb, k1. cbn [SFcompare].
  destruct (Z.compare_spec e (-52)) as [-> | Hlt | Hgt]; try discriminate.
  - intros H. split; [lia|].
    destruct (Pos.compare_cont Eq m 4503599627370496) eqn:Ec; try discriminate.
    change (2 ^ (- -52)) with (Z.pos 4503599627370496).
    apply Pos2Z.pos_lt_pos. exact Ec.
  - intros _. split; [lia|].
    assert (2 ^ Z.pos (digits2_pos m) <= 2 ^ (- e))
      by (apply Z.pow_le_mono_r; lia).
    lia.
Qed.

(** A number in [0, 1) times 1000. *)
Lemma mul1000_spec (m : positive) (e : Z) :
  e <= -52 -> Z.pos m < 2 ^ (- e) ->
  exists my ey : Z,
    SF64mul (S754_finite false m e) k1000 = finite_or_zero my ey /\
    0 <= my <= 1000 * 2 ^ (- ey) /\ ey <= -42.
Proof.
  intros He Hm. unfold SF64mul, SFmul, k1000. cbn [xorb].
  destruct (binary_round_aux_spec (m * 8796093022208000) (e + -43))
    as (m2 & e2 & Heq & H0 & HE & He2 & Hlo & Hhi).
  exists m2, e2. rewrite Heq. clear Heq.
  set (E := e + -43) in *.
  pose proof (digits2_bounds (m * 8796093022208000)) as [Hd _].
  set (dM := Z.pos (digits2_pos (m * 8796093022208000))) in *.
  rewrite Pos2Z.inj_mul in *.
  change (Z.pos 8796093022208000) with (1000 * 2 ^ 43) in *.
  assert (HpE : 2 ^ (- E) = 2 ^ (- e) * 2 ^ 43)
    by (unfold E; rewrite <- Z.pow_add_r by lia; f_equal; lia).
  assert (HM : Z.pos m * (1000 * 2 ^ 43) < 1000 * 2 ^ (- E))
    by (rewrite HpE; pose proof (pow2_pos 43); nia).
  assert (HdM : dM + E <= 10).
  { assert (H10 : 1000 * 2 ^ (- E) < 2 ^ (10 - E)).
    { replace (10 - E) with (10 + - E) by lia.
      rewrite Z.pow_add_r by lia. pose proof (pow2_pos (- E)).
      change (2 ^ 10) with 1024. nia. }
    assert (dM - 1 < 10 - E) by (apply pow2_lt_inv; lia). lia. }
  assert (He2' : e2 <= -42)
    by (unfold fexp, SpecFloat.emin, prec, emax in He2; lia).
  assert (Hm2 : m2 <= 1000 * 2 ^ (- e2)).
  { assert (HpE2 : 2 ^ (- E) = 2 ^ (- e2) * 2 ^ (e2 - E))
      by (rewrite <- Z.pow_add_r by lia; f_equal; lia).
    pose proof (pow2_pos (e2 - E)). pose proof (pow2_pos (- e2)).
    rewrite HpE2 in HM. nia. }
  split; [|split; [lia | exact He2']].
  unfold finite_or_zero. destruct m2 as [|p|p]; try reflexivity.
  destruct (Z.leb_spec e2 (emax - prec)) as [_ | Hgt]; [reflexivity|].
  unfold emax, prec in Hgt. lia.
Qed.

(** A number in [0, 1000] plus 1500. *)
Lemma add1500_spec (my : positive) (ey : Z) :
  ey <= -42 -> Z.pos my <= 1000 * 2 ^ (- ey) ->
  exists (mz : positive) (ez : Z),
    SF64add (S754_finite false my ey) k1500 = S754_finite false mz ez /\
    ez <= -40 /\
    1500 * 2 ^ (- ez) <= Z.pos mz <= 2500 * 2 ^ (- ez).
Proof.
  intros Hey Hmy. unfold SF64add, SFadd, k1500. cbn [cond_Zopp].
  rewrite Z.min_l by lia.
  destruct (shl_align_spec my ey ey) as [Ha1 Ha2].
  destruct (shl_align_spec 6597069766656000 (-42) ey) as [Hb1 Hb2].
  set (a := fst (shl_align my ey ey)) in *.
  set (b := fst (shl_align 6597069766656000 (-42) ey)) in *.
  rewrite Ha1, Z.min_id, Z.sub_diag in Ha2. rewrite Hb1, Z.min_r in Hb2 by lia.
  change (Z.pos a + Z.pos b) with (Z.pos (a + b)).
  cbn [binary_normalize]. unfold binary_round.
  destruct (shl_align_spec (a + b) ey
              (fexp prec emax (Z.pos (digits2_pos (a + b)) + ey))) as [Hc1 Hc2].
  destruct (shl_align (a + b) ey
              (fexp prec emax (Z.pos (digits2_pos (a + b)) + ey))) as [mz' ez'].
  cbn [fst snd] in Hc1, Hc2.
  assert (Hez' : ez' <= ey) by lia. clear Hc1.
  rewrite Pos2Z.inj_add, Ha2, Hb2 in Hc2. clear Ha1 Ha2 Hb1 Hb2.
  change (Z.pos 6597069766656000) with (1500 * 2 ^ 42) in Hc2.
  replace (1500 * 2 ^ 42 * 2 ^ (-42 - ey)) with (1500 * 2 ^ (- ey)) in Hc2
    by (rewrite <- Z.mul_assoc, <- Z.pow_add_r by lia;
        do 2 f_equal; lia).
  change (2 ^ 0) with 1 in Hc2. rewrite Z.mul_1_r in Hc2.
  assert (Hp : 2 ^ (- ez') = 2 ^ (- ey) * 2 ^ (ey - ez'))
    by (rewrite <- Z.pow_add_r by lia; f_equal; lia).
  pose proof (pow2_pos (- ey)) as Hp1. pose proof (pow2_pos (ey - ez')) as Hp2.
  assert (HM : 1500 * 2 ^ (- ez') <= Z.pos mz' <= 2500 * 2 ^ (- ez'))
    by (rewrite Hp, Hc2; nia).
  clear Hc2 Hp Hp1 Hp2 Hmy a b.
  destruct (binary_round_aux_spec mz' ez')
    as (m3 & e3 & Heq & H0 & HE & He3 & Hlo & Hhi).
  rewrite Heq. clear Heq.
  pose proof (digits2_bounds mz') as [Hd _].
  set (dM := Z.pos (digits2_pos mz')) in *.
  assert (HdM : dM + ez' <= 12).
  { assert (H12 : 2500 * 2 ^ (- ez') < 2 ^ (12 - ez')).
    { replace (12 - ez') with (12 + - ez') by lia.
      rewrite Z.pow_add_r by lia. pose proof (pow2_pos (- ez')).
      change (2 ^ 12) with 4096. nia. }
    assert (dM - 1 < 12 - ez') by (apply pow2_lt_inv; lia). lia. }
  assert (He3' : e3 <= -40)
    by (unfold fexp, SpecFloat.emin, prec, emax in He3; lia).
  assert (Hp : 2 ^ (- ez') = 2 ^ (- e3) * 2 ^ (e3 - ez'))
    by (rewrite <- Z.pow_add_r by lia; f_equal; lia).
  pose proof (pow2_pos (- e3)) as Hp1. pose proof (pow2_pos (e3 - ez')) as Hp2.
  rewrite Hp in HM.
  assert (Hm3 : 1500 * 2 ^ (- e3) <= m3 <= 2500 * 2 ^ (- e3)) by nia.
  destruct m3 as [|p|p]; try lia.
  exists p, e3.
  split; [|split; [exact He3' | exact Hm3]].
  destruct (Z.leb_spec e3 (emax - prec)) as [_ | Hgt]; [reflexivity|].
  unfold emax, prec in Hgt. lia.
Qed.

(** A number of the format with a value from 1500 to 2500 compares so. *)
Lemma in_range (mz : positive) (ez : Z) :
  bounded prec emax mz ez = true ->
  ez <= -40 ->
  1500 * 2 ^ (- ez) <= Z.pos mz <= 2500 * 2 ^ (- ez) ->
  SFleb k1500 (S754_finite false mz ez) = true /\
  SFleb (S754_finite false mz ez) k2500 = true.
Proof.
  unfold bounded. intros Hb Hez [Hlo Hhi].
  apply andb_prop in Hb as [Hc _].
  destruct (canonical_digits mz ez Hc) as [Hd Hn].
  pose proof (digits2_bounds mz) as [Hm1 Hm2].
  set (dg := Z.pos (digits2_pos mz)) in *.
  unfold SFleb, k1500, k2500. cbn [SFcompare]. split.
  - destruct (Z.compare_spec (-42) ez) as [<- | Hlt | Hgt]; [|reflexivity|].
    + destruct (Pos.compare_cont Eq 6597069766656000 mz) eqn:Ec;
        try reflexivity.
      assert (Hgt : (mz < 6597069766656000)%positive)
        by (apply Pos.compare_gt_iff; exact Ec).
      apply Pos2Z.pos_lt_pos in Hgt.
      change (Z.pos 6597069766656000) with (1500 * 2 ^ (- -42)) in Hgt.
      clear - Hgt Hlo. lia.
    + assert (2 ^ 43 <= 2 ^ (- ez)) by (apply Z.pow_le_mono_r; lia).
      assert (2 ^ dg <= 2 ^ 53) by (apply Z.pow_le_mono_r; lia).
      change (2 ^ 43) with 8796093022208 in *.
      change (2 ^ 53) with 9007199254740992 in *.
      clear - H H0 Hlo Hm2. lia.
  - destruct (Z.compare_spec ez (-41)) as [-> | Hlt | Hgt]; [|reflexivity|].
    + destruct (Pos.compare_cont Eq mz 5497558138880000) eqn:Ec;
        try reflexivity.
      assert (Hgt : (5497558138880000 < mz)%positive)
        by (apply Pos.compare_gt_iff; exact Ec).
      apply Pos2Z.pos_lt_pos in Hgt.
      change (Z.pos 5497558138880000) with (2500 * 2 ^ (- -41)) in Hgt.
      clear - Hgt Hhi. lia.
    + assert (ez = -40) by lia. subst ez.
      assert (dg = 53) by (apply Hn; lia).
      replace (dg - 1) with 52 in Hm1 by lia.
      change (2 ^ 52) with 4503599627370496 in Hm1.
      change (2 ^ (- -40)) with 1099511627776 in Hhi.
      clear - Hm1 Hhi. lia.
Qed.

(** The idle wait computed from a number of the format in [0, 1). *)
Lemma interval_shape (x : spec_float) :
  valid_binary x = true ->
  SFleb (S754_zero false) x = true ->
  SFltb x k1 = true ->
  exists (mz : positive) (ez : Z),
    SF64add (SF64mul x k1000) k1500 = S754_finite false mz ez /\
    ez <= -40 /\
    1500 * 2 ^ (- ez) <= Z.pos mz <= 2500 * 2 ^ (- ez).
Proof.
  intros Hv H0 H1.
  assert (Hk : exists (mz : positive) (ez : Z),
             k1500 = S754_finite false mz ez /\ ez <= -40 /\
             1500 * 2 ^ (- ez) <= Z.pos mz <= 2500 * 2 ^ (- ez)).
  { exists 6597069766656000%positive, (-42). split; [reflexivity|].
    split; [lia|]. split; [apply Z.leb_le | apply Z.leb_le];
      vm_compute; reflexivity. }
  destruct x as [s | s | | s m e].
  - destruct s; exact Hk.
  - destruct s; discriminate.
  - discriminate.
  - destruct s; [discriminate|].
    destruct (lt_one_spec m e Hv H1) as [He Hm].
    destruct (mul1000_spec m e He Hm) as (my & ey & -> & [Hy0 Hy] & Hey).
    destruct my as [|p|p]; [exact Hk | | lia].
    apply add1500_spec; assumption.
Qed.

End Binary64.

(** ** The glitch animator of [DemoName] *)

Module DemoName.

(** The three functions the component hands to [setTimeout]. *)
Inductive Callback : Type :=
| StartAnimation          (* the arrow function of line 20 *)
| AnimateNextStep
| RunFullGlitchSequence.

(** A pending timer: its handle, the time it is due, what it runs. *)
Record Timer : Type := mkTimer {
  handle : Z;
  due : Z;
  callback : Callback
}.

(** What the component does that an observer can see. *)
Inductive Event : Type :=
| SetIconOpacity (v : float)
| SetTimeout (cb : Callback) (delay : Z).

Record State : Type := mkState {
  now : Z;                          (* the clock, in ms *)
  nextHandle : Z;                   (* the handle the next setTimeout returns *)
  timers : list Timer;              (* pending timers, oldest first *)
  draws : nat;                      (* calls of Math.random() so far *)
  iconOpacity : float;              (* useState(0) *)
  glitchTimeoutRef : option Z;      (* useRef<number | null>(null) *)
  currentStepInSequence : nat;      (* the closure's counter *)
  trace : list Event                (* events so far, oldest first *)
}.

Definition set_now (t : Z) (s : State) : State :=
  mkState t (nextHandle s) (timers s) (draws s) (iconOpacity s)
          (glitchTimeoutRef s) (currentStepInSequence s) (trace s).

Definition set_timers (l : list Timer) (s : State) : State :=
  mkState (now s) (nextHandle s) l (draws s) (iconOpacity s)
          (glitchTimeoutRef s) (currentStepInSequence s) (trace s).

Definition set_glitchTimeoutRef (r : option Z) (s : State) : State :=
  mkState (now s) (nextHandle s) (timers s) (draws s) (iconOpacity s)
          r (currentStepInSequence s) (trace s).

Definition set_currentStepInSequence (c : nat) (s : State) : State :=
  mkState (now s) (nextHandle s) (timers s) (draws s) (iconOpacity s)
          (glitchTimeoutRef s) c (trace s).

(** *** The platform: timers and the event loop

    The clock is simulated: a timer runs when the loop reaches its due time,
    or later if the clock has been moved past it. The minimum delay that
    browsers impose on deeply nested timers (4 ms) is not modelled; the
    delays of the source are 75 ms and more. *)

(** [setTimeout cb delay]: a negative delay counts as 0; the handle returned
    is fresh and positive. *)
Definition setTimeout (cb : Callback) (delay : Z) (s : State) : Z * State :=
  let h := nextHandle s in
  (h, mkState (now s) (h + 1)
              (timers s ++ [mkTimer h (now s + Z.max 0 delay) cb])
              (draws s) (iconOpacity s) (glitchTimeoutRef s)
              (currentStepInSequence s)
              (trace s ++ [SetTimeout cb delay])).

(** [clearTimeout h]: forget the timer with this handle, if there is one. *)
Definition clearTimeout (h : Z) (s : State) : State :=
  set_timers (filter (fun t => negb (handle t =? h)) (timers s)) s.

(** [setIconOpacity v], the state setter of [useState]. *)
Definition setIconOpacity (v : float) (s : State) : State :=
  mkState (now s) (nextHandle s) (timers s) (draws s) v
          (glitchTimeoutRef s) (currentStepInSequence s)
          (trace s ++ [SetIconOpacity v]).

(** The pending timer the event loop runs next: the one due first, the
    oldest among those due together. *)
Fixpoint earliest (l : list Timer) : option Timer :=
  match l with
  | [] => None
  | t :: l' =>
      match earliest l' with
      | Some u => if due u <? due t then Some u else Some t
      | None => Some t
      end
  end.

(** The opacities emitted so far. *)
Fixpoint opacities (tr : list Event) : list float :=
  match tr with
  | [] => []
  | SetIconOpacity v :: tr' => v :: opacities tr'
  | SetTimeout _ _ :: tr' => opacities tr'
  end.

Definition history (s : State) : list float := opacities (trace s).

(** The number of timers scheduled so far. *)
Fixpoint scheduled (tr : list Event) : nat :=
  match tr with
  | [] => O
  | SetIconOpacity _ :: tr' => scheduled tr'
  | SetTimeout _ _ :: tr' => S (scheduled tr')
  end.

(** The idle wait of line 36, from what [Math.random()] returned. *)
Definition randomLoopInterval (r : float) : float :=
  (r * (2500 - 1500) + 1500)%float.

Definition set_draws (n : nat) (s : State) : State :=
  mkState (now s) (nextHandle s) (timers s) n (iconOpacity s)
          (glitchTimeoutRef s) (currentStepInSequence s) (trace s).

(** The constants of the source, lines 22, 23 and 45. *)
Module Source.
Definition glitchSteps : list float := [0.6; 0.2; 0.8; 0.4; 1]%float.
Definition stepInterval : Z := 75.
Definition startDelay : Z := 2000.
End Source.

(** A random source for examples: every draw is one half. *)
Definition half (i : nat) : float := 0.5%float.

(** The largest number below 1, [1 - 2^-53], which a [Math.random()] of 53
    random bits can return, and [1 - 2^-52], the largest that one of 52
    random bits can. *)
Definition belowOne : float := 0x1.fffffffffffffp-1%float.
Definition belowOne52 : float := 0x1.ffffffffffffep-1%float.

Section Animator.

(** The constants of the effect, and the random source: [random i] is what
    the [i]-th call of [Math.random()] returns. *)
Variable glitchSteps : list float.
Variable stepInterval : Z.
Variable startDelay : Z.
Variable random : nat -> float.

Definition animateNextStep (s : State) : State :=
  if (currentStepInSequence s <? List.length glitchSteps)%nat then
    let s1 := setIconOpacity (nth (currentStepInSequence s) glitchSteps 0%float) s in
    let s2 := set_currentStepInSequence (S (currentStepInSequence s1)) s1 in
    let '(h, s3) := setTimeout AnimateNextStep stepInterval s2 in
    set_glitchTimeoutRef (Some h) s3
  else
    let r := random (draws s) in
    let s1 := set_draws (S (draws s)) s in
    let '(h, s2) :=
      setTimeout RunFullGlitchSequence (Number.toLong (randomLoopInterval r)) s1 in
    set_glitchTimeoutRef (Some h) s2.

Definition runFullGlitchSequence (s : State) : State :=
  animateNextStep (set_currentStepInSequence 0 s).

(** The body of the callback of line 20. *)
Definition startAnimation (s : State) : State :=
  runFullGlitchSequence (set_currentStepInSequence 0 s).

Definition call (cb : Callback) (s : State) : State :=
  match cb with
  | StartAnimation => startAnimation s
  | AnimateNextStep => animateNextStep s
  | RunFullGlitchSequence => runFullGlitchSequence s
  end.

(** The event loop runs a timer: the clock is at its due time or later, the
    timer is no longer pending, its callback runs to completion. *)
Definition fire (t : Timer) (s : State) : State :=
  call (callback t)
       (set_now (Z.max (now s) (due t)) (clearTimeout (handle t) s)).

(** One turn of the event loop. *)
Definition step (s : State) : State :=
  match earliest (timers s) with
  | Some t => fire t s
  | None => s
  end.

(** Time passes and nothing runs. *)
Definition tick (t : Z) (s : State) : State := set_now (Z.max (now s) t) s.

(** The event loop up to the time [deadline]: every timer due by then runs,
    in order, each at its due time; [fuel] bounds the number of callbacks. *)
Fixpoint run (fuel : nat) (deadline : Z) (s : State) : option State :=
  match earliest (timers s) with
  | Some t =>
      if due t <=? deadline then
        match fuel with
        | O => None
        | S fuel' => run fuel' deadline (fire t s)
        end
      else Some (tick deadline s)
  | None => Some (tick deadline s)
  end.

Definition advance (fuel : nat) (ms : Z) (s : State) : option State :=
  run fuel (now s + ms) s.

(** *** The component's life *)

(** Before the effect runs: [useState(0)], [useRef(null)], no timer. *)
Definition initial : State :=
  mkState 0 1 [] O 0%float None O [].

(** The effect of line 19; the handle it returns is the
    [startAnimationTimeout] its cleanup closes over. *)
Definition useEffect (s : State) : Z * State :=
  setTimeout StartAnimation startDelay s.

(** The cleanup of line 47. A handle is a number, and 0 is falsy. *)
Definition cleanup (startAnimationTimeout : Z) (s : State) : State :=
  let s1 := clearTimeout startAnimationTimeout s in
  match glitchTimeoutRef s1 with
  | Some h => if h =? 0 then s1 else clearTimeout h s1
  | None => s1
  end.

Definition startAnimationTimeout : Z := fst (useEffect initial).
Definition mounted : State := snd (useEffect initial).
Definition unmount (s : State) : State := cleanup startAnimationTimeout s.

(** The states of a mounted component, and of one unmounted since. *)
Inductive reachable : State -> Prop :=
| reach_mount : reachable mounted
| reach_fire s t :
    reachable s -> earliest (timers s) = Some t -> reachable (fire t s)
| reach_tick s t : reachable s -> reachable (tick t s)
| reach_unmount s : reachable s -> reachable (unmount s).

(** The mounted component after the event loop has run [k] timers. *)
Definition after (k : nat) : State := Nat.iter k step mounted.

(** *** The timetable of a run

    Burst [j] starts at [burstStart j]; its step [c] is emitted [c] step
    intervals later; one more interval later the idle wait starts, and it
    lasts [pause j]. *)

Definition pause (j : nat) : Z :=
  Z.max 0 (Number.toLong (randomLoopInterval (random j))).

Fixpoint burstStart (j : nat) : Z :=
  match j with
  | O => Z.max 0 startDelay
  | S j' =>
      burstStart j' + Z.of_nat (List.length glitchSteps) * stepInterval + pause j'
  end.

(** The events of the steps [l] of a burst, of a whole cycle, of the first
    [j] cycles, and of a run that has reached step [c] of burst [j]. *)
Definition burstEvents (l : list float) : list Event :=
  flat_map (fun v => [SetIconOpacity v; SetTimeout AnimateNextStep stepInterval]) l.

Definition idleEvent (j : nat) : Event :=
  SetTimeout RunFullGlitchSequence (Number.toLong (randomLoopInterval (random j))).

Fixpoint cyclesEvents (j : nat) : list Event :=
  match j with
  | O => []
  | S j' => cyclesEvents j' ++ burstEvents glitchSteps ++ [idleEvent j']
  end.

Definition traceAt (j c : nat) : list Event :=
  SetTimeout StartAnimation startDelay
    :: cyclesEvents j ++ burstEvents (firstn c glitchSteps).

(** [j] whole bursts. *)
Fixpoint bursts (j : nat) : list float :=
  match j with
  | O => []
  | S j' => bursts j' ++ glitchSteps
  end.

(** The callbacks run before step [c] of burst [j] is out. *)
Definition firings (j c : nat) : nat := (j * S (List.length glitchSteps) + c)%nat.

(** The state just after step [c - 1] of burst [j] is emitted. *)
Definition InBurst (j c : nat) (s : State) : Prop :=
  now s = burstStart j + (Z.of_nat c - 1) * stepInterval /\
  timers s = [mkTimer (nextHandle s - 1)
                      (burstStart j + Z.of_nat c * stepInterval)
                      AnimateNextStep] /\
  glitchTimeoutRef s = Some (nextHandle s - 1) /\
  draws s = j /\
  currentStepInSequence s = c /\
  iconOpacity s = nth (c - 1) glitchSteps 0%float /\
  trace s = traceAt j c.

(** The state during the idle wait after burst [j]. *)
Definition Idle (j : nat) (s : State) : Prop :=
  now s = burstStart j + Z.of_nat (List.length glitchSteps) * stepInterval /\
  timers s = [mkTimer (nextHandle s - 1) (burstStart (S j)) RunFullGlitchSequence] /\
  glitchTimeoutRef s = Some (nextHandle s - 1) /\
  draws s = S j /\
  trace s = traceAt (S j) 0.

(** [Reaches k t]: [k] timers are due by the time [t], and running the loop
    to a later deadline runs them first. *)
Definition Reaches (k : nat) (t : Z) : Prop :=
  forall T fuel, t <= T -> run (k + fuel) T mounted = run fuel T (after k).

(** What every state of the component's life satisfies: a pending timer is
    alone, and the cleanup knows its handle. *)
Definition Tidy (s : State) : Prop :=
  0 < nextHandle s /\
  (timers s = [] \/
   exists t, timers s = [t] /\ 0 < handle t /\
             (handle t = startAnimationTimeout \/
              glitchTimeoutRef s = Some (handle t))).

(** [Tidy] for the cleanup of any run of the effect, [h] being the handle of
    its warm-up timer. *)
Definition TidyFor (h : Z) (s : State) : Prop :=
  0 < nextHandle s /\
  (timers s = [] \/
   exists t, timers s = [t] /\ 0 < handle t /\
             (handle t = h \/ glitchTimeoutRef s = Some (handle t))).

(** The effect run again after its cleanup, as React's strict mode does
    with every effect: the handle the new cleanup closes over, and the
    state. *)
Definition remount (s : State) : Z * State := useEffect (unmount s).

(** The delays of the idle waits scheduled so far. *)
Fixpoint idleDelays (tr : list Event) : list Z :=
  match tr with
  | [] => []
  | SetTimeout RunFullGlitchSequence delay :: tr' => delay :: idleDelays tr'
  | _ :: tr' => idleDelays tr'
  end.

(** The emitted opacities are whole bursts and the steps of one more, up to
    step [c], and the pending timer fits: a step timer will go on from
    [c], an idle-wait timer waits after a whole burst, the warm-up timer
    before anything is emitted. *)
Definition Ordered (s : State) : Prop :=
  exists j c,
    (c <= List.length glitchSteps)%nat /\
    history s = bursts j ++ firstn c glitchSteps /\
    forall t, In t (timers s) ->
      match callback t with
      | StartAnimation => history s = []
      | AnimateNextStep => currentStepInSequence s = c
      | RunFullGlitchSequence => c = List.length glitchSteps
      end.

(** One draw for each idle wait, in order, none left unused. *)
Definition Drawn (s : State) : Prop :=
  idleDelays (trace s)
  = map (fun i => Number.toLong (randomLoopInterval (random i)))
        (seq 0 (draws s)).

(** A number from 0 to 1. *)
Definition unitInterval (v : float) : bool :=
  ((0 <=? v) && (v <=? 1))%float.

(** *** Facts on lists and events *)

Lemma firstn_succ_nth (A : Type) (d : A) (l : list A) (c : nat) :
  (c < List.length l)%nat -> firstn (S c) l = firstn c l ++ [nth c l d].
Proof.
  revert c; induction l as [|a l IH]; intros c Hc; simpl in Hc; [lia|].
  destruct c as [|c]; [reflexivity|].
  change (a :: firstn (S c) l = a :: (firstn c l ++ [nth c l d])).
  f_equal. apply IH; lia.
Qed.

Lemma opacities_app (tr1 tr2 : list Event) :
  opacities (tr1 ++ tr2) = opacities tr1 ++ opacities tr2.
Proof.
  induction tr1 as [|[v|cb dl] tr1 IH]; simpl; rewrite ?IH; reflexivity.
Qed.

Lemma scheduled_app (tr1 tr2 : list Event) :
  scheduled (tr1 ++ tr2) = (scheduled tr1 + scheduled tr2)%nat.
Proof.
  induction tr1 as [|[v|cb dl] tr1 IH]; simpl; rewrite ?IH; reflexivity.
Qed.

Lemma burstEvents_app (l1 l2 : list float) :
  burstEvents (l1 ++ l2) = burstEvents l1 ++ burstEvents l2.
Proof. apply flat_map_app. Qed.

Lemma opacities_burstEvents (l : list float) : opacities (burstEvents l) = l.
Proof. induction l as [|v l IH]; simpl; [reflexivity | now rewrite IH]. Qed.

Lemma opacities_cyclesEvents (j : nat) : opacities (cyclesEvents j) = bursts j.
Proof.
  induction j as [|j IH]; [reflexivity|].
  cbn [cyclesEvents bursts].
  rewrite !opacities_app, IH, opacities_burstEvents.
  cbn. now rewrite app_nil_r.
Qed.

Lemma opacities_traceAt (j c : nat) :
  opacities (traceAt j c) = bursts j ++ firstn c glitchSteps.
Proof.
  unfold traceAt. cbn [opacities].
  now rewrite opacities_app, opacities_cyclesEvents, opacities_burstEvents.
Qed.

Lemma traceAt_succ (j c : nat) :
  (c < List.length glitchSteps)%nat ->
  traceAt j (S c) =
  traceAt j c ++ [SetIconOpacity (nth c glitchSteps 0%float);
                  SetTimeout AnimateNextStep stepInterval].
Proof.
  intros Hc. unfold traceAt.
  rewrite (firstn_succ_nth _ 0%float), burstEvents_app by exact Hc.
  cbn [burstEvents flat_map app].
  now rewrite app_comm_cons, app_assoc.
Qed.

Lemma traceAt_next (j : nat) :
  traceAt (S j) 0 = traceAt j (List.length glitchSteps) ++ [idleEvent j].
Proof.
  unfold traceAt. cbn [cyclesEvents firstn burstEvents flat_map].
  now rewrite firstn_all, app_nil_r, app_comm_cons, !app_assoc.
Qed.

(** *** What the callbacks do *)

Lemma animateNextStep_emit (s : State) :
  (currentStepInSequence s < List.length glitchSteps)%nat ->
  animateNextStep s =
  mkState (now s) (nextHandle s + 1)
          (timers s ++ [mkTimer (nextHandle s) (now s + Z.max 0 stepInterval)
                                AnimateNextStep])
          (draws s)
          (nth (currentStepInSequence s) glitchSteps 0%float)
          (Some (nextHandle s))
          (S (currentStepInSequence s))
          ((trace s ++ [SetIconOpacity (nth (currentStepInSequence s) glitchSteps 0%float)])
             ++ [SetTimeout AnimateNextStep stepInterval]).
Proof.
  intros Hc. unfold animateNextStep.
  destruct (Nat.ltb_spec (currentStepInSequence s) (List.length glitchSteps));
    [reflexivity | lia].
Qed.

Lemma animateNextStep_idle (s : State) :
  (List.length glitchSteps <= currentStepInSequence s)%nat ->
  animateNextStep s =
  mkState (now s) (nextHandle s + 1)
          (timers s ++ [mkTimer (nextHandle s)
                                (now s + pause (draws s))
                                RunFullGlitchSequence])
          (S (draws s))
          (iconOpacity s)
          (Some (nextHandle s))
          (currentStepInSequence s)
          (trace s ++ [idleEvent (draws s)]).
Proof.
  intros Hc. unfold animateNextStep.
  destruct (Nat.ltb_spec (currentStepInSequence s) (List.length glitchSteps));
    [lia | reflexivity].
Qed.

Lemma clearTimeout_single (t : Timer) (s : State) :
  timers s = [t] -> timers (clearTimeout (handle t) s) = [].
Proof.
  intros Ht. unfold clearTimeout. cbn. rewrite Ht. cbn.
  now rewrite Z.eqb_refl.
Qed.

(** Whichever branch it takes, [animateNextStep] schedules one timer and
    stores its handle. *)
Lemma animateNextStep_schedules (s : State) :
  exists t,
    timers (animateNextStep s) = timers s ++ [t] /\
    handle t = nextHandle s /\
    glitchTimeoutRef (animateNextStep s) = Some (nextHandle s) /\
    nextHandle (animateNextStep s) = nextHandle s + 1 /\
    scheduled (trace (animateNextStep s)) = S (scheduled (trace s)).
Proof.
  destruct (Nat.ltb_spec (currentStepInSequence s) (List.length glitchSteps)).
  - rewrite animateNextStep_emit by assumption.
    eexists; cbn; repeat split.
    rewrite !scheduled_app; cbn; lia.
  - rewrite animateNextStep_idle by assumption.
    eexists; cbn; repeat split.
    rewrite !scheduled_app; cbn; lia.
Qed.

Lemma call_schedules (cb : Callback) (s : State) :
  exists t,
    timers (call cb s) = timers s ++ [t] /\
    handle t = nextHandle s /\
    glitchTimeoutRef (call cb s) = Some (nextHandle s) /\
    nextHandle (call cb s) = nextHandle s + 1 /\
    scheduled (trace (call cb s)) = S (scheduled (trace s)).
Proof.
  destruct cb; cbn [call]; unfold startAnimation, runFullGlitchSequence;
    match goal with
    | |- context [animateNextStep ?x] =>
        destruct (animateNextStep_schedules x) as (t & H1 & H2 & H3 & H4 & H5)
    end; exists t; repeat split; assumption.
Qed.

Lemma earliest_single (l : list Timer) (t u : Timer) :
  l = [t] -> earliest l = Some u -> u = t.
Proof. intros ->. cbn. congruence. Qed.

Lemma Tidy_mounted : Tidy mounted.
Proof.
  split; [cbn; lia|]. right.
  exists (mkTimer 1 (Z.max 0 startDelay) StartAnimation).
  split; [reflexivity | split; [cbn; lia | left; reflexivity]].
Qed.

Lemma Tidy_fire (s : State) (t : Timer) :
  Tidy s -> earliest (timers s) = Some t -> Tidy (fire t s).
Proof.
  intros [Hpos [Hnil | (u & Hu & _)]] He.
  - rewrite Hnil in He. discriminate.
  - apply (earliest_single _ _ _ Hu) in He. subst u.
    unfold fire.
    destruct (call_schedules (callback t)
                (set_now (Z.max (now s) (due t)) (clearTimeout (handle t) s)))
      as (t' & Htm & Hh & Href & Hnext & _).
    cbn [set_now timers nextHandle] in Htm, Hh, Hnext.
    rewrite (clearTimeout_single t s Hu) in Htm.
    change (nextHandle (clearTimeout (handle t) s)) with (nextHandle s) in *.
    split; [lia|]. right. exists t'.
    split; [exact Htm | split; [lia | right]].
    rewrite Href, Hh. reflexivity.
Qed.

Lemma Tidy_tick (s : State) (t : Z) : Tidy s -> Tidy (tick t s).
Proof. intros H. exact H. Qed.

Lemma timers_cleanup (h : Z) (s : State) :
  timers s = [] \/
  (exists t, timers s = [t] /\ 0 < handle t /\
             (handle t = h \/ glitchTimeoutRef s = Some (handle t))) ->
  timers (cleanup h s) = [].
Proof.
  intros Hs. unfold cleanup.
  change (glitchTimeoutRef (clearTimeout h s)) with (glitchTimeoutRef s).
  destruct Hs as [Hnil | (t & Ht & Hpos & Hk)].
  - destruct (glitchTimeoutRef s) as [g|]; [destruct (g =? 0)|];
      unfold clearTimeout; cbn [set_timers timers]; rewrite Hnil; reflexivity.
  - destruct (Z.eqb_spec (handle t) h) as [E | N].
    + destruct (glitchTimeoutRef s) as [g|]; [destruct (g =? 0)|];
        unfold clearTimeout; cbn [set_timers timers]; rewrite Ht;
        cbn [filter]; rewrite E, Z.eqb_refl; reflexivity.
    + destruct Hk as [E | Hr]; [contradiction|]. rewrite Hr.
      destruct (Z.eqb_spec (handle t) 0) as [Z0 | _]; [lia|].
      unfold clearTimeout; cbn [set_timers timers]; rewrite Ht.
      cbn [filter].
      destruct (Z.eqb_spec (handle t) h) as [E | _]; [contradiction|].
      cbn [negb filter]. now rewrite Z.eqb_refl.
Qed.

Lemma Tidy_unmount (s : State) : Tidy s -> Tidy (unmount s).
Proof.
  intros [Hpos Ht]. split.
  - unfold unmount, cleanup. cbn.
    destruct (glitchTimeoutRef s) as [g|]; [|exact Hpos].
    destruct (g =? 0); exact Hpos.
  - left. now apply timers_cleanup.
Qed.

Lemma reachable_Tidy (s : State) : reachable s -> Tidy s.
Proof.
  induction 1 as [| s t _ IH He | s t _ IH | s _ IH].
  - exact Tidy_mounted.
  - now apply Tidy_fire.
  - now apply Tidy_tick.
  - now apply Tidy_unmount.
Qed.

(** The cleanup touches nothing but the pending timers. *)
Lemma cleanup_frame (h : Z) (s : State) :
  cleanup h s = set_timers (timers (cleanup h s)) s.
Proof.
  unfold cleanup.
  destruct (glitchTimeoutRef (clearTimeout h s)) as [g|]; [|reflexivity].
  destruct (g =? 0); reflexivity.
Qed.

(** States the event loop reaches are states of the component's life. *)
Lemma run_reachable (fuel : nat) (T : Z) (s s' : State) :
  reachable s -> run fuel T s = Some s' -> reachable s'.
Proof.
  revert s; induction fuel as [|fuel IH]; intros s Hs; cbn [run];
    destruct (earliest (timers s)) as [t|] eqn:He;
    try destruct (due t <=? T);
    intros Hr; try discriminate;
    try (injection Hr as <-; now apply reach_tick).
  apply (IH (fire t s)); [now apply reach_fire | exact Hr].
Qed.

Lemma reachable_step (s : State) : reachable s -> reachable (step s).
Proof.
  intros Hs. unfold step. destruct (earliest (timers s)) as [t|] eqn:He;
    [now apply reach_fire | exact Hs].
Qed.

Lemma reachable_after (k : nat) : reachable (after k).
Proof.
  induction k as [|k IH]; [apply reach_mount | now apply reachable_step].
Qed.

(** *** The order of the opacities, whatever the timing *)

Lemma history_emit (s : State) :
  (currentStepInSequence s < List.length glitchSteps)%nat ->
  history (animateNextStep s)
  = history s ++ [nth (currentStepInSequence s) glitchSteps 0%float].
Proof.
  intros Hc. rewrite animateNextStep_emit by exact Hc.
  unfold history. cbn [trace]. rewrite !opacities_app. cbn.
  now rewrite app_nil_r.
Qed.

Lemma history_idle (s : State) :
  (List.length glitchSteps <= currentStepInSequence s)%nat ->
  history (animateNextStep s) = history s.
Proof.
  intros Hc. rewrite animateNextStep_idle by exact Hc.
  unfold history. cbn [trace]. rewrite opacities_app. cbn.
  now rewrite app_nil_r.
Qed.

Lemma Ordered_animateNextStep (s : State) (j c : nat) :
  timers s = [] ->
  (c <= List.length glitchSteps)%nat ->
  history s = bursts j ++ firstn c glitchSteps ->
  currentStepInSequence s = c ->
  Ordered (animateNextStep s).
Proof.
  intros Htm Hc Hh Hcur.
  destruct (Nat.ltb_spec c (List.length glitchSteps)) as [Hlt | Hge].
  - exists j, (S c). split; [lia|]. split.
    + rewrite history_emit by lia. rewrite Hh, Hcur.
      rewrite (firstn_succ_nth _ 0%float) by exact Hlt.
      now rewrite app_assoc.
    + rewrite animateNextStep_emit by lia. cbn [timers].
      rewrite Htm. intros t [<- | []]. cbn. now rewrite Hcur.
  - exists j, c. split; [lia|]. split.
    + rewrite history_idle by lia. exact Hh.
    + rewrite animateNextStep_idle by lia. cbn [timers].
      rewrite Htm. intros t [<- | []]. cbn. lia.
Qed.

Lemma Ordered_fire (s : State) (t : Timer) :
  Tidy s -> Ordered s -> earliest (timers s) = Some t -> Ordered (fire t s).
Proof.
  intros [_ [Hnil | (u & Hu & _)]] (j & c & Hc & Hh & Hp) He.
  - rewrite Hnil in He. discriminate.
  - apply (earliest_single _ _ _ Hu) in He. subst u.
    specialize (Hp t). rewrite Hu in Hp. specialize (Hp (or_introl eq_refl)).
    pose proof (clearTimeout_single t s Hu) as Hclr.
    unfold fire.
    set (s0 := set_now (Z.max (now s) (due t)) (clearTimeout (handle t) s)).
    assert (Htm0 : timers s0 = []) by exact Hclr.
    assert (Hh0 : history s0 = history s) by reflexivity.
    destruct (callback t); cbn [call];
      unfold startAnimation, runFullGlitchSequence.
    + apply (Ordered_animateNextStep _ 0 0);
        [exact Htm0 | lia | exact Hp | reflexivity].
    + apply (Ordered_animateNextStep _ j c);
        [exact Htm0 | exact Hc | exact Hh | exact Hp].
    + apply (Ordered_animateNextStep _ (S j) 0);
        [exact Htm0 | lia | | reflexivity].
      change (history s = bursts (S j) ++ firstn 0 glitchSteps).
      rewrite Hh, Hp, firstn_all. cbn [bursts firstn]. now rewrite app_nil_r.
Qed.

Lemma reachable_Ordered (s : State) : reachable s -> Ordered s.
Proof.
  induction 1 as [| s t Hs IH He | s t _ IH | s Hs IH].
  - exists O, O. split; [lia|]. split; [reflexivity|].
    intros t [<- | []]. reflexivity.
  - apply Ordered_fire; [now apply reachable_Tidy | exact IH | exact He].
  - exact IH.
  - destruct IH as (j & c & Hc & Hh & _).
    exists j, c. split; [exact Hc|]. split.
    + unfold unmount. rewrite cleanup_frame. exact Hh.
    + destruct (reachable_Tidy s Hs) as [_ Ht].
      unfold unmount. rewrite (timers_cleanup _ _ Ht). intros t [].
Qed.

Lemma Forall_bursts (P : float -> Prop) (j : nat) :
  Forall P glitchSteps -> Forall P (bursts j).
Proof.
  intros HP. induction j as [|j IH]; cbn [bursts]; [constructor|].
  apply Forall_app. split; assumption.
Qed.

Lemma Forall_firstn (P : float -> Prop) (c : nat) (l : list float) :
  Forall P l -> Forall P (firstn c l).
Proof.
  intros HP. rewrite <- (firstn_skipn c l) in HP.
  apply Forall_app in HP. tauto.
Qed.

(** *** The opacity on display *)

Lemma shown_animateNextStep (s : State) :
  iconOpacity s = last (history s) 0%float ->
  iconOpacity (animateNextStep s) = last (history (animateNextStep s)) 0%float.
Proof.
  intros Hs.
  destruct (Nat.ltb_spec (currentStepInSequence s) (List.length glitchSteps)).
  - rewrite history_emit by assumption. rewrite last_last.
    rewrite animateNextStep_emit by assumption. reflexivity.
  - rewrite history_idle by assumption.
    rewrite animateNextStep_idle by assumption. exact Hs.
Qed.

Lemma reachable_shown (s : State) :
  reachable s -> iconOpacity s = last (history s) 0%float.
Proof.
  induction 1 as [| s t _ IH _ | s t _ IH | s _ IH].
  - reflexivity.
  - unfold fire.
    destruct (callback t); cbn [call];
      unfold startAnimation, runFullGlitchSequence;
      apply shown_animateNextStep; exact IH.
  - exact IH.
  - unfold unmount. rewrite cleanup_frame. exact IH.
Qed.

(** *** The random draws *)

Lemma idleDelays_app (tr1 tr2 : list Event) :
  idleDelays (tr1 ++ tr2) = idleDelays tr1 ++ idleDelays tr2.
Proof.
  induction tr1 as [|[v|[| |] dl] tr1 IH]; cbn; rewrite ?IH; reflexivity.
Qed.

Lemma Drawn_animateNextStep (s : State) : Drawn s -> Drawn (animateNextStep s).
Proof.
  unfold Drawn. intros Hs.
  destruct (Nat.ltb_spec (currentStepInSequence s) (List.length glitchSteps)).
  - rewrite animateNextStep_emit by assumption. cbn [trace draws].
    rewrite !idleDelays_app, Hs. cbn. now rewrite !app_nil_r.
  - rewrite animateNextStep_idle by assumption. cbn [trace draws].
    rewrite idleDelays_app, Hs, seq_S, map_app. reflexivity.
Qed.

Lemma reachable_Drawn (s : State) : reachable s -> Drawn s.
Proof.
  induction 1 as [| s t _ IH _ | s t _ IH | s _ IH].
  - reflexivity.
  - unfold fire.
    destruct (callback t); cbn [call];
      unfold startAnimation, runFullGlitchSequence;
      apply Drawn_animateNextStep; exact IH.
  - exact IH.
  - unfold unmount, Drawn. rewrite cleanup_frame. exact IH.
Qed.

(** *** The effect run again *)

Lemma TidyFor_step (h : Z) (s : State) : TidyFor h s -> TidyFor h (step s).
Proof.
  intros [Hpos Ht]. unfold step.
  destruct Ht as [Hnil | (t & Ht & _)].
  - rewrite Hnil. cbn. split; [exact Hpos | left; exact Hnil].
  - rewrite Ht. cbn [earliest]. unfold fire.
    destruct (call_schedules (callback t)
                (set_now (Z.max (now s) (due t)) (clearTimeout (handle t) s)))
      as (t' & Htm & Hh & Href & Hnext & _).
    cbn [set_now timers nextHandle] in Htm, Hh, Hnext.
    rewrite (clearTimeout_single t s Ht) in Htm.
    change (nextHandle (clearTimeout (handle t) s)) with (nextHandle s) in *.
    split; [lia|]. right. exists t'.
    split; [exact Htm | split; [lia | right]].
    rewrite Href, Hh. reflexivity.
Qed.

Lemma TidyFor_iter (h : Z) (s : State) (k : nat) :
  TidyFor h s -> TidyFor h (Nat.iter k step s).
Proof.
  intros Hs. induction k as [|k IH]; [exact Hs|].
  cbn [Nat.iter]. now apply TidyFor_step.
Qed.

Lemma remount_spec (s : State) :
  reachable s ->
  fst (remount s) = nextHandle s /\
  timers (snd (remount s))
  = [mkTimer (nextHandle s) (now s + Z.max 0 startDelay) StartAnimation] /\
  TidyFor (fst (remount s)) (snd (remount s)).
Proof.
  intros Hs. destruct (reachable_Tidy s Hs) as [Hpos Ht].
  assert (Hnil : timers (unmount s) = [])
    by (apply timers_cleanup; exact Ht).
  assert (Hfr : unmount s = set_timers [] s)
    by (unfold unmount in *; rewrite cleanup_frame, Hnil; reflexivity).
  unfold remount, useEffect. rewrite Hfr. cbn.
  split; [reflexivity|]. split; [reflexivity|].
  split; [cbn; lia|]. right. eexists. split; [reflexivity|].
  cbn. split; [exact Hpos | left; reflexivity].
Qed.

(** *** One turn of the event loop, phase by phase *)

Hypothesis stepInterval_pos : 0 < stepInterval.

Ltac state_simpl :=
  cbn -[Z.add Z.sub Z.mul Z.max Z.of_nat traceAt burstStart pause nth].

Ltac state_eq :=
  first [ reflexivity
        | match goal with |- @eq Z _ _ => lia end
        | progress f_equal; state_eq ].

Ltac state_done := repeat split; state_eq.

Lemma pause_nonneg (j : nat) : 0 <= pause j.
Proof. unfold pause. lia. Qed.

Lemma timers_mounted :
  timers mounted = [mkTimer 1 (Z.max 0 startDelay) StartAnimation].
Proof. reflexivity. Qed.

Lemma length_pos : glitchSteps <> [] -> (0 < List.length glitchSteps)%nat.
Proof. destruct glitchSteps; [congruence | cbn; lia]. Qed.

(** The warm-up timer runs: step 0 of burst 0 is out. *)
Lemma step_mounted :
  glitchSteps <> [] -> InBurst 0 1 (step mounted).
Proof.
  intros Hne. pose proof (length_pos Hne) as Hlen.
  unfold step. rewrite timers_mounted. cbn [earliest].
  unfold fire. cbn [callback call].
  unfold startAnimation, runFullGlitchSequence.
  rewrite animateNextStep_emit by (cbn; lia).
  unfold InBurst. state_simpl.
  rewrite (traceAt_succ 0 0) by lia. cbn [burstStart].
  state_done.
Qed.

(** A step timer runs inside a burst: the next step is out. *)
Lemma step_InBurst (j c : nat) (s : State) :
  InBurst j c s -> (1 <= c < List.length glitchSteps)%nat ->
  InBurst j (S c) (step s).
Proof.
  intros (Hnow & Htm & Href & Hdr & Hcur & Hop & Htr) Hc.
  unfold step. rewrite Htm. cbn [earliest].
  unfold fire. cbn [callback call handle due].
  rewrite animateNextStep_emit by (cbn; lia).
  unfold InBurst. state_simpl. rewrite Htm. state_simpl.
  rewrite Z.eqb_refl. state_simpl.
  rewrite Hcur, Htr, Hnow, Hdr.
  rewrite (traceAt_succ j c) by lia.
  rewrite ?Nat.sub_0_r.
  rewrite <- app_assoc. cbn [app].
  state_done.
Qed.

(** The step timer runs after the last step: the idle wait starts. *)
Lemma step_last (j : nat) (s : State) :
  InBurst j (List.length glitchSteps) s -> Idle j (step s).
Proof.
  intros (Hnow & Htm & Href & Hdr & Hcur & Hop & Htr).
  unfold step. rewrite Htm. cbn [earliest].
  unfold fire. cbn [callback call handle due].
  rewrite animateNextStep_idle by (cbn; lia).
  unfold Idle. state_simpl. rewrite Htm. state_simpl.
  rewrite Z.eqb_refl. state_simpl.
  rewrite Htr, Hnow, Hdr, traceAt_next.
  cbn [burstStart].
  state_done.
Qed.

(** The idle timer runs: step 0 of the next burst is out. *)
Lemma step_Idle (j : nat) (s : State) :
  glitchSteps <> [] -> Idle j s -> InBurst (S j) 1 (step s).
Proof.
  intros Hne (Hnow & Htm & Href & Hdr & Htr).
  pose proof (length_pos Hne) as Hlen.
  unfold step. rewrite Htm. cbn [earliest].
  unfold fire. cbn [callback call handle due].
  unfold runFullGlitchSequence.
  rewrite animateNextStep_emit by (cbn; lia).
  unfold InBurst. state_simpl. rewrite Htm. state_simpl.
  rewrite Z.eqb_refl. state_simpl.
  rewrite Htr, Hnow, Hdr.
  rewrite (traceAt_succ (S j) 0) by lia.
  rewrite <- app_assoc. cbn [app].
  pose proof (pause_nonneg j). cbn [burstStart].
  state_done.
Qed.

(** *** The event loop up to a deadline *)

Lemma run_fire (fuel : nat) (T : Z) (s : State) (t : Timer) :
  timers s = [t] -> due t <= T -> run (S fuel) T s = run fuel T (step s).
Proof.
  intros Ht Hdue. unfold step. cbn [run]. rewrite Ht. cbn [earliest].
  destruct (Z.leb_spec (due t) T); [reflexivity | lia].
Qed.

Lemma run_wait (fuel : nat) (T : Z) (s : State) (t : Timer) :
  timers s = [t] -> T < due t -> run fuel T s = Some (tick T s).
Proof.
  intros Ht Hdue. destruct fuel; cbn [run]; rewrite Ht; cbn [earliest];
    destruct (Z.leb_spec (due t) T); solve [reflexivity | lia].
Qed.

Lemma run_quiet (fuel : nat) (T : Z) (s : State) :
  timers s = [] -> run fuel T s = Some (tick T s).
Proof. intros Ht. destruct fuel; cbn [run]; rewrite Ht; reflexivity. Qed.

Lemma Reaches_step (k : nat) (t : Z) (tm : Timer) :
  Reaches k t -> timers (after k) = [tm] -> t <= due tm ->
  Reaches (S k) (due tm).
Proof.
  intros Hk Htm Hle T fuel HT.
  replace (S k + fuel)%nat with (k + S fuel)%nat by lia.
  rewrite Hk by lia. now rewrite (run_fire fuel T _ tm Htm HT).
Qed.

Lemma firings_succ (j c : nat) : firings j (S c) = S (firings j c).
Proof. unfold firings. lia. Qed.

Lemma firings_next (j : nat) :
  firings (S j) 1 = S (firings j (S (List.length glitchSteps))).
Proof. unfold firings. lia. Qed.

Section Phases.

Hypothesis glitchSteps_ne : glitchSteps <> [].

(** From the first step of a burst to each of its steps. *)
Lemma burst_steps (j : nat) :
  InBurst j 1 (after (firings j 1)) ->
  Reaches (firings j 1) (burstStart j) ->
  forall c, (1 <= c <= List.length glitchSteps)%nat ->
    InBurst j c (after (firings j c)) /\
    Reaches (firings j c) (burstStart j + (Z.of_nat c - 1) * stepInterval).
Proof.
  intros H1 R1 c. induction c as [|c IH]; intros Hc; [lia|].
  destruct c as [|c].
  - split; [exact H1|]. intros T fuel HT. apply R1. lia.
  - destruct IH as [HI HR]; [lia|].
    rewrite firings_succ. split.
    + apply step_InBurst; [exact HI | lia].
    + destruct HI as (Hnow & Htm & _).
      pose proof (Reaches_step _ _ _ HR Htm) as Hs. cbn [due] in Hs.
      intros T fuel HT. apply Hs; lia.
Qed.

(** The phases of the run, burst after burst. *)
Lemma phases (j : nat) :
  InBurst j 1 (after (firings j 1)) /\ Reaches (firings j 1) (burstStart j).
Proof.
  pose proof (length_pos glitchSteps_ne) as Hlen.
  induction j as [|j [HI HR]].
  - split; [exact (step_mounted glitchSteps_ne)|].
    assert (R0 : Reaches 0 0) by (intros T fuel _; reflexivity).
    pose proof (Reaches_step _ _ _ R0 timers_mounted) as Hs. cbn [due] in Hs.
    intros T fuel HT. apply Hs; cbn [burstStart] in *; lia.
  - destruct (burst_steps j HI HR (List.length glitchSteps)) as [HL RL];
      [lia|].
    pose proof (step_last _ _ HL) as HId.
    destruct HL as (_ & Htm & _).
    pose proof (Reaches_step _ _ _ RL Htm) as RId. cbn [due] in RId.
    rewrite firings_next.
    change (after (S (firings j (S (List.length glitchSteps)))))
      with (step (after (firings j (S (List.length glitchSteps))))).
    rewrite firings_succ.
    change (after (S (firings j (List.length glitchSteps))))
      with (step (after (firings j (List.length glitchSteps)))) in *.
    split; [now apply step_Idle|].
    destruct HId as (_ & Htm' & _).
    assert (RId' : Reaches (S (firings j (List.length glitchSteps)))
                     (burstStart j + Z.of_nat (List.length glitchSteps) * stepInterval))
      by (apply RId; lia).
    pose proof (Reaches_step _ _ _ RId' Htm') as Hs. cbn [due] in Hs.
    apply Hs. pose proof (pause_nonneg j). cbn [burstStart]. lia.
Qed.

(** Step [c - 1] of burst [j] is out after [firings j c] timers. *)
Lemma after_InBurst (j c : nat) :
  (1 <= c <= List.length glitchSteps)%nat ->
  InBurst j c (after (firings j c)) /\
  Reaches (firings j c) (burstStart j + (Z.of_nat c - 1) * stepInterval).
Proof. destruct (phases j) as [HI HR]. now apply burst_steps. Qed.

(** The loop run to a time between two steps of burst [j]. *)
Lemma run_in_burst (j c : nat) (T : Z) (fuel : nat) :
  (1 <= c <= List.length glitchSteps)%nat ->
  burstStart j + (Z.of_nat c - 1) * stepInterval <= T ->
  T < burstStart j + Z.of_nat c * stepInterval ->
  (firings j c <= fuel)%nat ->
  run fuel T mounted = Some (tick T (after (firings j c))).
Proof.
  intros Hc Hlo Hhi Hfuel.
  destruct (after_InBurst j c Hc) as [(_ & Htm & _) HR].
  replace fuel with (firings j c + (fuel - firings j c))%nat by lia.
  rewrite HR by exact Hlo.
  apply (run_wait _ _ _ _ Htm). cbn [due]. exact Hhi.
Qed.

(** Step [n - 1] of burst [j] is out and the following timer has run: the
    component waits. *)
Lemma after_Idle (j : nat) :
  Idle j (after (firings j (S (List.length glitchSteps)))) /\
  Reaches (firings j (S (List.length glitchSteps)))
          (burstStart j + Z.of_nat (List.length glitchSteps) * stepInterval).
Proof.
  pose proof (length_pos glitchSteps_ne) as Hlen.
  destruct (after_InBurst j (List.length glitchSteps)) as [HL RL]; [lia|].
  rewrite firings_succ. split.
  - now apply step_last.
  - destruct HL as (_ & Htm & _).
    pose proof (Reaches_step _ _ _ RL Htm) as Hs. cbn [due] in Hs.
    apply Hs. lia.
Qed.

(** The loop run to a time within the idle wait after burst [j]. *)
Lemma run_in_idle (j : nat) (T : Z) (fuel : nat) :
  burstStart j + Z.of_nat (List.length glitchSteps) * stepInterval <= T ->
  T < burstStart (S j) ->
  (firings j (S (List.length glitchSteps)) <= fuel)%nat ->
  run fuel T mounted =
  Some (tick T (after (firings j (S (List.length glitchSteps))))).
Proof.
  intros Hlo Hhi Hfuel.
  destruct (after_Idle j) as [(_ & Htm & _) HR].
  replace fuel
    with (firings j (S (List.length glitchSteps))
          + (fuel - firings j (S (List.length glitchSteps))))%nat by lia.
  rewrite HR by exact Hlo.
  apply (run_wait _ _ _ _ Htm). cbn [due]. exact Hhi.
Qed.

Lemma trace_after (j c : nat) :
  (1 <= c <= List.length glitchSteps)%nat ->
  trace (after (firings j c)) = traceAt j c.
Proof.
  intros Hc. destruct (after_InBurst j c Hc) as [HI _].
  destruct HI as (_ & _ & _ & _ & _ & _ & Htr). exact Htr.
Qed.

Lemma history_after (j c : nat) :
  (1 <= c <= List.length glitchSteps)%nat ->
  history (after (firings j c)) = bursts j ++ firstn c glitchSteps.
Proof.
  intros Hc. unfold history. rewrite (trace_after j c Hc).
  apply opacities_traceAt.
Qed.

(** *** The loop settles at every deadline *)

Lemma burstStart_ge (j : nat) : Z.of_nat j <= burstStart j.
Proof.
  pose proof (length_pos glitchSteps_ne) as Hlen.
  induction j as [|j IH]; cbn [burstStart]; [lia|].
  pose proof (pause_nonneg j). nia.
Qed.

Lemma settles_before (j : nat) (T : Z) :
  T < burstStart j ->
  exists k s, forall fuel, (k <= fuel)%nat -> run fuel T mounted = Some s.
Proof.
  pose proof (length_pos glitchSteps_ne) as Hlen.
  induction j as [|j IH]; intros HT.
  - exists O, (tick T mounted). intros fuel _.
    apply (run_wait _ _ _ _ timers_mounted). exact HT.
  - destruct (Z.lt_ge_cases T (burstStart j)) as [Hlt | Hge];
      [now apply IH|].
    set (q := (T - burstStart j) / stepInterval).
    assert (Hq : stepInterval * q <= T - burstStart j
                 < stepInterval * (q + 1)).
    { split.
      - apply Z.mul_div_le. lia.
      - rewrite Z.mul_add_distr_l, Z.mul_1_r.
        pose proof (Z.div_mod (T - burstStart j) stepInterval ltac:(lia)).
        pose proof (Z.mod_pos_bound (T - burstStart j) stepInterval ltac:(lia)).
        fold q in H. lia. }
    assert (Hq0 : 0 <= q) by (apply Z.div_pos; lia).
    destruct (Z.lt_ge_cases q (Z.of_nat (List.length glitchSteps)))
      as [Hin | Hout].
    + exists (firings j (S (Z.to_nat q))),
             (tick T (after (firings j (S (Z.to_nat q))))).
      intros fuel Hfuel.
      apply run_in_burst; [lia | | | exact Hfuel];
        rewrite Nat2Z.inj_succ, Z2Nat.id by lia; nia.
    + exists (firings j (S (List.length glitchSteps))),
             (tick T (after (firings j (S (List.length glitchSteps))))).
      intros fuel Hfuel.
      apply run_in_idle; [nia | exact HT | exact Hfuel].
Qed.

Lemma settles (T : Z) :
  exists k s, forall fuel, (k <= fuel)%nat -> run fuel T mounted = Some s.
Proof.
  apply (settles_before (Z.to_nat (T + 1))).
  pose proof (burstStart_ge (Z.to_nat (T + 1))). lia.
Qed.

Lemma length_bursts (j : nat) :
  List.length (bursts j) = (j * List.length glitchSteps)%nat.
Proof.
  induction j as [|j IH]; [reflexivity|].
  cbn [bursts]. rewrite length_app, IH. lia.
Qed.

Lemma burstStart_lt (i j : nat) : (i < j)%nat -> burstStart i < burstStart j.
Proof.
  pose proof (length_pos glitchSteps_ne) as Hlen.
  induction j as [|j IH]; intros Hij; [lia|].
  assert (Hstep : burstStart j < burstStart (S j))
    by (cbn [burstStart]; pose proof (pause_nonneg j); nia).
  destruct (Nat.eq_dec i j) as [-> | Hne]; [exact Hstep|].
  specialize (IH ltac:(lia)). lia.
Qed.

Lemma burstStart_le (i j : nat) : (i <= j)%nat -> burstStart i <= burstStart j.
Proof.
  intros Hij. destruct (Nat.eq_dec i j) as [-> | Hne]; [lia|].
  pose proof (burstStart_lt i j ltac:(lia)). lia.
Qed.

(** The loop settled at the deadline [T]: burst [j] has begun if and only if
    the time [burstStart j] has come, and by the number of opacities emitted
    one can tell. *)
Lemma settles_at (J : nat) (T : Z) :
  T < burstStart J ->
  exists k s,
    (forall fuel, (k <= fuel)%nat -> run fuel T mounted = Some s) /\
    (forall j, T < burstStart j ->
               (List.length (history s) <= j * List.length glitchSteps)%nat) /\
    (forall j, burstStart j <= T ->
               (j * List.length glitchSteps + 1 <= List.length (history s))%nat).
Proof.
  pose proof (length_pos glitchSteps_ne) as Hlen.
  induction J as [|J IH]; intros HT.
  - exists O, (tick T mounted). split; [|split].
    + intros fuel _. apply (run_wait _ _ _ _ timers_mounted). exact HT.
    + intros j _. cbn. lia.
    + intros j Hj. pose proof (burstStart_le 0 j ltac:(lia)). lia.
  - destruct (Z.lt_ge_cases T (burstStart J)) as [Hlt | Hge];
      [now apply IH|].
    assert (Hbefore : forall j, T < burstStart j -> (S J <= j)%nat).
    { intros j Hj. destruct (Nat.le_gt_cases (S J) j) as [|Hgt]; [assumption|].
      pose proof (burstStart_le j J ltac:(lia)). lia. }
    assert (Hafter : forall j, burstStart j <= T -> (j <= J)%nat).
    { intros j Hj. destruct (Nat.le_gt_cases j J) as [|Hgt]; [assumption|].
      pose proof (burstStart_le (S J) j ltac:(lia)). lia. }
    set (q := (T - burstStart J) / stepInterval).
    assert (Hq : stepInterval * q <= T - burstStart J
                 < stepInterval * (q + 1)).
    { split.
      - apply Z.mul_div_le. lia.
      - rewrite Z.mul_add_distr_l, Z.mul_1_r.
        pose proof (Z.div_mod (T - burstStart J) stepInterval ltac:(lia)).
        pose proof (Z.mod_pos_bound (T - burstStart J) stepInterval ltac:(lia)).
        fold q in H. lia. }
    assert (Hq0 : 0 <= q) by (apply Z.div_pos; lia).
    destruct (Z.lt_ge_cases q (Z.of_nat (List.length glitchSteps)))
      as [Hin | Hout].
    + set (c := S (Z.to_nat q)).
      assert (Hc : (1 <= c <= List.length glitchSteps)%nat) by (unfold c; lia).
      assert (Hlen' : List.length (history (after (firings J c)))
                      = (J * List.length glitchSteps + c)%nat).
      { rewrite history_after by exact Hc.
        rewrite length_app, length_bursts, length_firstn. lia. }
      exists (firings J c), (tick T (after (firings J c))).
      split; [|split].
      * intros fuel Hfuel.
        apply run_in_burst; [exact Hc | | | exact Hfuel];
          unfold c; rewrite Nat2Z.inj_succ, Z2Nat.id by lia; nia.
      * intros j Hj. specialize (Hbefore j Hj).
        change (history (tick T (after (firings J c))))
          with (history (after (firings J c))).
        rewrite Hlen'. nia.
      * intros j Hj. specialize (Hafter j Hj).
        change (history (tick T (after (firings J c))))
          with (history (after (firings J c))).
        rewrite Hlen'. nia.
    + assert (Hlen' :
                List.length (history (after (firings J (S (List.length glitchSteps)))))
                = (S J * List.length glitchSteps)%nat).
      { destruct (after_Idle J) as [(_ & _ & _ & _ & Htr) _].
        unfold history. rewrite Htr, opacities_traceAt.
        cbn [firstn]. rewrite app_nil_r. apply length_bursts. }
      exists (firings J (S (List.length glitchSteps))),
             (tick T (after (firings J (S (List.length glitchSteps))))).
      split; [|split].
      * intros fuel Hfuel.
        apply run_in_idle; [nia | exact HT | exact Hfuel].
      * intros j Hj. specialize (Hbefore j Hj).
        change (history (tick T (after (firings J (S (List.length glitchSteps))))))
          with (history (after (firings J (S (List.length glitchSteps))))).
        rewrite Hlen'. nia.
      * intros j Hj. specialize (Hafter j Hj).
        change (history (tick T (after (firings J (S (List.length glitchSteps))))))
          with (history (after (firings J (S (List.length glitchSteps))))).
        rewrite Hlen'. nia.
Qed.

Lemma settled (T : Z) :
  exists k s,
    (forall fuel, (k <= fuel)%nat -> run fuel T mounted = Some s) /\
    (forall j, T < burstStart j ->
               (List.length (history s) <= j * List.length glitchSteps)%nat) /\
    (forall j, burstStart j <= T ->
               (j * List.length glitchSteps + 1 <= List.length (history s))%nat).
Proof.
  apply (settles_at (Z.to_nat (T + 1))).
  pose proof (burstStart_ge (Z.to_nat (T + 1))). lia.
Qed.

(** The clock when step [k] of burst [j] has just been emitted. *)
Lemma clock_after (j k : nat) :
  (k < List.length glitchSteps)%nat ->
  now (after (firings j (S k))) = burstStart j + Z.of_nat k * stepInterval.
Proof.
  intros Hk. destruct (after_InBurst j (S k)) as [(Hnow & _) _]; [lia|].
  rewrite Hnow. lia.
Qed.

End Phases.

(** Before the warm-up timer is due nothing runs. *)
Lemma run_before_start (T : Z) (fuel : nat) :
  T < Z.max 0 startDelay -> run fuel T mounted = Some (tick T mounted).
Proof. intros HT. apply (run_wait _ _ _ _ timers_mounted). exact HT. Qed.

End Animator.

Import Source.

(** *** The steps of a burst *)

(** Mounted with the source's constants, the component has emitted nothing
    when [k * stepInterval] ms have passed, for [k] = 0 and for [k] = 4,
    the last step: the warm-up is not over. An animator without warm-up
    would have emitted the first [k + 1] steps. *)
Lemma history_during_warmup :
  (exists s,
      advance glitchSteps stepInterval half 10 (0 * stepInterval)
              (mounted startDelay) = Some s /\
      history s = [] /\
      history s <> firstn 1 glitchSteps) /\
  (exists s,
      advance glitchSteps stepInterval half 10 (4 * stepInterval)
              (mounted startDelay) = Some s /\
      history s = [] /\
      history s <> firstn 5 glitchSteps).
Proof.
  split; eexists; (split; [vm_compute; reflexivity|]);
    (split; [reflexivity | vm_compute; discriminate]).
Qed.

(** C1, amended: for every step list [steps], step interval [d > 0] and
    warm-up delay [w] (2000 ms in the source, where the steps are
    [0.6, 0.2, 0.8, 0.4, 1] and [d] is 75 ms), once the component is mounted
    and the time [w + k * d] has passed, [k] below the number of steps, the
    opacities emitted are the first [k + 1] steps, in the order of the list;
    so they are until the next step is due. *)
Theorem burst_history :
  glitchSteps = [0.6; 0.2; 0.8; 0.4; 1]%float /\ stepInterval = 75 /\
  startDelay = 2000 /\
  forall (steps : list float) (d w : Z) (rnd : nat -> float) (k fuel : nat)
         (t : Z),
    0 < d -> 0 <= w -> (k < List.length steps)%nat -> (k < fuel)%nat ->
    Z.of_nat k * d <= t < (Z.of_nat k + 1) * d ->
    exists s,
      advance steps d rnd fuel (w + t) (mounted w) = Some s /\
      history s = firstn (S k) steps.
Proof.
  repeat (split; [reflexivity|]).
  intros steps d w rnd k fuel t Hd Hw Hk Hfuel Ht.
  assert (Hne : steps <> []) by (destruct steps; [cbn in Hk; lia | congruence]).
  exists (tick (w + t) (after steps d w rnd (firings steps 0 (S k)))).
  split.
  - unfold advance. change (now (mounted w)) with 0. rewrite Z.add_0_l.
    apply run_in_burst; try assumption; cbn [burstStart]; unfold firings; lia.
  - change (history (after steps d w rnd (firings steps 0 (S k)))
            = firstn (S k) steps).
    rewrite history_after by (assumption || lia). reflexivity.
Qed.

Lemma burst_history_witness :
  exists s,
    advance glitchSteps 75 half 10 (2000 + Z.of_nat 3 * 75) (mounted 2000) = Some s /\
    history s = firstn 4 glitchSteps.
Proof.
  apply (proj2 (proj2 (proj2 burst_history))); [lia | lia | cbn; lia | lia | lia].
Defined.

(** *** The idle wait *)

(** For [belowOne] the idle wait is 2500 ms, the excluded end of the
    range: the product is rounded to the format and so is the sum. The same
    holds for [belowOne52]. *)
Lemma idle_wait_reaches_maximum :
  ((0 <=? belowOne)%float = true /\ (belowOne <? 1)%float = true /\
   randomLoopInterval belowOne = 2500%float /\
   (randomLoopInterval belowOne <? 2500)%float = false /\
   Number.toLong (randomLoopInterval belowOne) = 2500) /\
  ((0 <=? belowOne52)%float = true /\ (belowOne52 <? 1)%float = true /\
   randomLoopInterval belowOne52 = 2500%float /\
   (randomLoopInterval belowOne52 <? 2500)%float = false /\
   Number.toLong (randomLoopInterval belowOne52) = 2500).
Proof. repeat split; vm_compute; reflexivity. Qed.

Lemma randomLoopInterval_shape (r : float) :
  (0 <=? r)%float = true -> (r <? 1)%float = true ->
  exists (mz : positive) (ez : Z),
    Prim2SF (randomLoopInterval r) = S754_finite false mz ez /\
    ez <= -40 /\
    1500 * 2 ^ (- ez) <= Z.pos mz <= 2500 * 2 ^ (- ez).
Proof.
  intros H0 H1. rewrite leb_spec in H0. rewrite ltb_spec in H1.
  destruct Binary64.constants as (E0 & E1 & E1000 & E1500 & _).
  rewrite E0 in H0. rewrite E1 in H1.
  unfold randomLoopInterval. rewrite add_spec, mul_spec, E1000, E1500.
  apply Binary64.interval_shape; [apply Prim2SF_valid | exact H0 | exact H1].
Qed.

(** C5, amended: for every number [r] that [Math.random()] can return, 0
    or more and below 1, the idle wait computed from it is 1500 or more and
    2500 or less, as a number and as the whole milliseconds the timer is set
    to. *)
Theorem idle_wait_range (r : float) :
  (0 <=? r)%float = true -> (r <? 1)%float = true ->
  (1500 <=? randomLoopInterval r)%float = true /\
  (randomLoopInterval r <=? 2500)%float = true /\
  1500 <= Number.toLong (randomLoopInterval r) <= 2500.
Proof.
  intros H0 H1.
  destruct (randomLoopInterval_shape r H0 H1) as (mz & ez & Hz & Hez & Hlo & Hhi).
  destruct Binary64.constants as (_ & _ & _ & E1500 & E2500).
  pose proof (Prim2SF_valid (randomLoopInterval r)) as Hv.
  rewrite !leb_spec, E1500, E2500, Hz. rewrite Hz in Hv.
  destruct (Binary64.in_range mz ez Hv Hez (conj Hlo Hhi)) as [Ha Hb].
  split; [exact Ha|]. split; [exact Hb|].
  unfold Number.toLong. rewrite Hz.
  rewrite Z.shiftl_div_pow2 by lia.
  pose proof (Binary64.pow2_pos (- ez) ltac:(lia)) as Hp.
  assert (Hq : 1500 <= Z.pos mz / 2 ^ (- ez) <= 2500).
  { split.
    - apply Z.div_le_lower_bound; lia.
    - apply Z.div_le_upper_bound; lia. }
  unfold Number.toInt32.
  change (2 ^ 31) with 2147483648. change (2 ^ 32) with 4294967296.
  rewrite Z.mod_small by lia. lia.
Qed.

Lemma idle_wait_range_witness :
  (1500 <=? randomLoopInterval 0.5)%float = true /\
  (randomLoopInterval 0.5 <=? 2500)%float = true /\
  1500 <= Number.toLong (randomLoopInterval 0.5) <= 2500.
Proof. apply (idle_wait_range 0.5%float); reflexivity. Defined.

(** *** The warm-up *)

(** C6: mounting schedules the warm-up timer, 2000 ms in the source, and
    nothing else; until the warm-up delay has passed no opacity is emitted;
    when it has, the first opacity emitted is step 0 of the list. *)
Theorem warmup_delay :
  startDelay = 2000 /\
  forall (steps : list float) (d w : Z) (rnd : nat -> float),
    0 <= w ->
    trace (mounted w) = [SetTimeout StartAnimation w] /\
    (forall (T : Z) (fuel : nat),
        T < w ->
        exists s, run steps d rnd fuel T (mounted w) = Some s /\
                  history s = []) /\
    (forall (T : Z) (fuel : nat),
        0 < d -> steps <> [] -> w <= T < w + d -> (1 <= fuel)%nat ->
        exists s, run steps d rnd fuel T (mounted w) = Some s /\
                  history s = [nth 0 steps 0%float] /\
                  currentStepInSequence s = 1%nat).
Proof.
  split; [reflexivity|].
  intros steps d w rnd Hw. split; [reflexivity|]. split.
  - intros T fuel HT. exists (tick T (mounted w)). split; [|reflexivity].
    apply run_before_start. lia.
  - intros T fuel Hd Hne HT Hfuel.
    pose proof (length_pos steps Hne) as Hlen.
    exists (tick T (after steps d w rnd (firings steps 0 1))).
    split; [|split].
    + apply run_in_burst; try assumption; cbn [burstStart]; unfold firings; lia.
    + change (history (after steps d w rnd (firings steps 0 1))
              = [nth 0 steps 0%float]).
      rewrite history_after by (assumption || lia).
      destruct steps; [congruence | reflexivity].
    + destruct (after_InBurst steps d w rnd Hd Hne 0 1) as [HI _]; [lia|].
      destruct HI as (_ & _ & _ & _ & Hcur & _). exact Hcur.
Qed.

Lemma warmup_delay_witness :
  (exists s, run glitchSteps 75 half 0 1999 (mounted 2000) = Some s /\
             history s = []) /\
  (exists s, run glitchSteps 75 half 1 2000 (mounted 2000) = Some s /\
             history s = [nth 0 glitchSteps 0%float] /\
             currentStepInSequence s = 1%nat).
Proof.
  destruct (proj2 warmup_delay glitchSteps 75 2000 half) as (_ & Hbefore & Hat);
    [lia|].
  split.
  - apply Hbefore. lia.
  - apply Hat; [lia | discriminate | lia | lia].
Defined.

(** *** Burst after burst *)

(** C3: for every number [j] of bursts gone by, burst [j + 1] starts one
    step interval and one idle wait after the last step of burst [j]: the
    opacity emitted then is step 0 again, nothing is emitted in between, and
    between the two emissions the component schedules the step timer that
    finds the list exhausted and one idle-wait timer, nothing else. *)
Theorem burst_restart
  (steps : list float) (d w : Z) (rnd : nat -> float) (j fuel : nat) :
  0 < d -> 0 <= w -> steps <> [] ->
  (firings steps (S j) 1 <= fuel)%nat ->
  let n := List.length steps in
  let tLast := burstStart steps d w rnd j + (Z.of_nat n - 1) * d in
  let tNext := burstStart steps d w rnd (S j) in
  tNext = tLast + d + pause rnd j /\
  (exists sLast sNext,
    run steps d rnd fuel tLast (mounted w) = Some sLast /\
    run steps d rnd fuel tNext (mounted w) = Some sNext /\
    history sLast = bursts steps (S j) /\
    history sNext = bursts steps (S j) ++ [nth 0 steps 0%float] /\
    trace sNext =
      trace sLast ++ [idleEvent rnd j;
                      SetIconOpacity (nth 0 steps 0%float);
                      SetTimeout AnimateNextStep d]) /\
  (forall T, tLast <= T < tNext ->
     exists s, run steps d rnd fuel T (mounted w) = Some s /\
               history s = bursts steps (S j)).
Proof.
  intros Hd Hw Hne Hfuel n tLast tNext.
  pose proof (length_pos steps Hne) as Hlen. fold n in Hlen.
  assert (Hfirings : (firings steps j (S n) <= fuel)%nat)
    by (unfold firings in *; fold n in Hfuel |- *; lia).
  assert (Hfirings' : (firings steps j n <= fuel)%nat)
    by (unfold firings in *; lia).
  assert (Hlast : history (after steps d w rnd (firings steps j n))
                  = bursts steps (S j)).
  { rewrite history_after by (assumption || lia).
    subst n. now rewrite firstn_all. }
  pose proof (pause_nonneg rnd j) as Hp.
  split; [subst tLast tNext n; cbn [burstStart]; lia|]. split.
  - exists (tick tLast (after steps d w rnd (firings steps j n))).
    exists (tick tNext (after steps d w rnd (firings steps (S j) 1))).
    split; [|split; [|split; [|split]]].
    + apply run_in_burst; try assumption; subst tLast n; lia.
    + apply run_in_burst; try assumption; subst tNext n; lia.
    + exact Hlast.
    + change (history (after steps d w rnd (firings steps (S j) 1))
              = bursts steps (S j) ++ [nth 0 steps 0%float]).
      rewrite history_after by (assumption || lia).
      destruct steps; [congruence | reflexivity].
    + change (trace (after steps d w rnd (firings steps (S j) 1))
              = trace (after steps d w rnd (firings steps j n))
                  ++ [idleEvent rnd j; SetIconOpacity (nth 0 steps 0%float);
                      SetTimeout AnimateNextStep d]).
      rewrite !trace_after by (assumption || lia).
      rewrite (traceAt_succ steps d w rnd (S j) 0) by lia.
      rewrite traceAt_next. fold n. now rewrite <- app_assoc.
  - intros T [HT1 HT2].
    destruct (Z.lt_ge_cases T (tLast + d)) as [Hin | Hout].
    + exists (tick T (after steps d w rnd (firings steps j n))).
      split; [|exact Hlast].
      apply run_in_burst; try assumption; subst tLast n; lia.
    + exists (tick T (after steps d w rnd (firings steps j (S n)))).
      split.
      * apply run_in_idle; try assumption; subst tLast tNext n; lia.
      * destruct (after_Idle steps d w rnd Hd Hne j)
          as [(_ & _ & _ & _ & Htr) _].
        change (opacities (trace (after steps d w rnd (firings steps j (S n))))
                = bursts steps (S j)).
        fold n in Htr. rewrite Htr, opacities_traceAt.
        cbn [firstn]. apply app_nil_r.
Qed.

Lemma burst_restart_witness :
  burstStart glitchSteps 75 2000 half 2
  = burstStart glitchSteps 75 2000 half 1 + (5 - 1) * 75 + 75 + pause half 1 /\
  (exists sLast sNext,
    run glitchSteps 75 half 20
        (burstStart glitchSteps 75 2000 half 1 + (5 - 1) * 75)
        (mounted 2000) = Some sLast /\
    run glitchSteps 75 half 20
        (burstStart glitchSteps 75 2000 half 2) (mounted 2000) = Some sNext /\
    history sLast = bursts glitchSteps 2 /\
    history sNext = bursts glitchSteps 2 ++ [nth 0 glitchSteps 0%float] /\
    trace sNext =
      trace sLast ++ [idleEvent half 1;
                      SetIconOpacity (nth 0 glitchSteps 0%float);
                      SetTimeout AnimateNextStep 75]) /\
  (forall T,
     burstStart glitchSteps 75 2000 half 1 + (5 - 1) * 75 <= T
     < burstStart glitchSteps 75 2000 half 2 ->
     exists s, run glitchSteps 75 half 20 T (mounted 2000) = Some s /\
               history s = bursts glitchSteps 2).
Proof.
  apply (burst_restart glitchSteps 75 2000 half 1 20);
    [lia | lia | discriminate | cbn; lia].
Defined.

(** *** Pending timers *)

(** C7: in every state of the component's life at most one timer is
    pending, so no two timers, of whatever kind, are pending together; and
    every callback, whichever it is and in whatever state it runs, schedules
    one timer and no more. *)
Theorem at_most_one_timer
  (steps : list float) (d w : Z) (rnd : nat -> float) (s : State) :
  reachable steps d w rnd s ->
  (List.length (timers s) <= 1)%nat /\
  (forall t u, In t (timers s) -> In u (timers s) -> t = u) /\
  (forall cb s0, exists t,
      timers (call steps d rnd cb s0) = timers s0 ++ [t] /\
      scheduled (trace (call steps d rnd cb s0)) = S (scheduled (trace s0))).
Proof.
  intros Hs. destruct (reachable_Tidy _ _ _ _ _ Hs) as [_ Ht].
  split; [|split].
  - destruct Ht as [-> | (t & -> & _)]; cbn; lia.
  - intros t u Hin Hin'.
    destruct Ht as [E | (x & E & _)]; rewrite E in Hin, Hin'; cbn in Hin, Hin';
      intuition congruence.
  - intros cb s0.
    destruct (call_schedules steps d rnd cb s0) as (t & H1 & _ & _ & _ & H5).
    exists t. split; assumption.
Qed.

Lemma at_most_one_timer_witness :
  (List.length (timers (mounted 2000)) <= 1)%nat /\
  (List.length (timers (after glitchSteps 75 2000 half 2)) <= 1)%nat /\
  (List.length (timers (after glitchSteps 75 2000 half 6)) <= 1)%nat /\
  (List.length (timers (unmount 2000 (after glitchSteps 75 2000 half 6))) <= 1)%nat.
Proof.
  pose proof (fun s H => proj1 (at_most_one_timer glitchSteps 75 2000 half s H))
    as Hone.
  repeat split; apply Hone.
  - apply reach_mount.
  - apply reachable_after.
  - apply reachable_after.
  - apply reach_unmount, reachable_after.
Defined.

(** *** Unmounting *)

(** The three kinds of timer are each pending at some time of a run: the
    warm-up timer once mounted, a step timer after two callbacks, the
    idle-wait timer after six. *)
Lemma pending_kinds :
  map callback (timers (mounted 2000)) = [StartAnimation] /\
  map callback (timers (after glitchSteps 75 2000 half 2)) = [AnimateNextStep] /\
  map callback (timers (after glitchSteps 75 2000 half 6))
  = [RunFullGlitchSequence].
Proof. repeat split; vm_compute; reflexivity. Qed.

(** C2: unmount the component in any state of its life, with the warm-up
    timer pending, a step timer, an idle-wait timer or none: the cleanup
    emits nothing, leaves no timer pending, and however long the event loop
    runs afterwards it runs no callback, so that the opacity, the emitted
    history and the rest of the component's state stay as they were. The
    cleanup of a state without a pending timer changes nothing at all. *)
Theorem no_emission_after_unmount
  (steps : list float) (d w : Z) (rnd : nat -> float) (s : State) :
  reachable steps d w rnd s ->
  timers (unmount w s) = [] /\
  unmount w s = set_timers [] s /\
  (forall (fuel : nat) (T : Z),
      exists s',
        run steps d rnd fuel T (unmount w s) = Some s' /\
        s' = set_now (now s') (unmount w s) /\
        trace s' = trace s /\
        history s' = history s /\
        iconOpacity s' = iconOpacity s /\
        timers s' = []) /\
  (timers s = [] -> unmount w s = s).
Proof.
  intros Hs. destruct (reachable_Tidy _ _ _ _ _ Hs) as [_ Ht].
  assert (Hnil : timers (unmount w s) = [])
    by (apply timers_cleanup; exact Ht).
  assert (Hfr : unmount w s = set_timers [] s)
    by (unfold unmount in *; rewrite cleanup_frame, Hnil; reflexivity).
  split; [exact Hnil|]. split; [exact Hfr|]. split.
  - intros fuel T. exists (tick T (unmount w s)).
    split; [now apply run_quiet|].
    rewrite Hfr. repeat split.
  - intros E. rewrite Hfr. destruct s; cbn in *. now rewrite E.
Qed.

Lemma no_emission_after_unmount_witness :
  (* unmounted during the warm-up, inside a burst, during an idle wait *)
  timers (unmount 2000 (mounted 2000)) = [] /\
  timers (unmount 2000 (after glitchSteps 75 2000 half 2)) = [] /\
  timers (unmount 2000 (after glitchSteps 75 2000 half 6)) = [] /\
  (forall (fuel : nat) (T : Z),
      exists s',
        run glitchSteps 75 half fuel T
            (unmount 2000 (after glitchSteps 75 2000 half 2)) = Some s' /\
        history s' = history (after glitchSteps 75 2000 half 2)).
Proof.
  pose proof (no_emission_after_unmount glitchSteps 75 2000 half) as H.
  split; [|split; [|split]].
  - apply (H (mounted 2000)), reach_mount.
  - apply (H (after glitchSteps 75 2000 half 2)), reachable_after.
  - apply (H (after glitchSteps 75 2000 half 6)), reachable_after.
  - intros fuel T.
    destruct (H (after glitchSteps 75 2000 half 2) (reachable_after _ _ _ _ 2))
      as (_ & _ & Hrun & _).
    destruct (Hrun fuel T) as (s' & Hr & _ & _ & Hh & _).
    exists s'. split; assumption.
Defined.

(** *** Further properties of the animator *)

(** X1: whatever the timing, timers run late or the component unmounted at
    any moment, the opacities emitted so far are whole bursts followed by
    the first steps of the list, in the order of the list. *)
Theorem history_in_list_order
  (steps : list float) (d w : Z) (rnd : nat -> float) (s : State) :
  reachable steps d w rnd s ->
  exists j c,
    (c <= List.length steps)%nat /\
    history s = bursts steps j ++ firstn c steps.
Proof.
  intros Hs. destruct (reachable_Ordered _ _ _ _ _ Hs) as (j & c & Hc & Hh & _).
  exists j, c. split; assumption.
Qed.

Lemma history_in_list_order_witness :
  (* the warm-up timer runs 3 s late, the next two timers later still *)
  let s := step glitchSteps 75 half
             (step glitchSteps 75 half
                (tick 9000 (step glitchSteps 75 half
                              (tick 5000 (mounted 2000))))) in
  exists j c,
    (c <= List.length glitchSteps)%nat /\
    history s = bursts glitchSteps j ++ firstn c glitchSteps.
Proof.
  apply (history_in_list_order glitchSteps 75 2000 half).
  repeat first [ apply reachable_step | apply reach_tick | apply reach_mount ].
Defined.

(** X2: in every state of the component's life the opacity on display is
    the last one emitted, and 0, the initial state, before the first. *)
Theorem opacity_is_last_emitted
  (steps : list float) (d w : Z) (rnd : nat -> float) (s : State) :
  reachable steps d w rnd s ->
  iconOpacity s = last (history s) 0%float.
Proof. apply reachable_shown. Qed.

Lemma opacity_is_last_emitted_witness :
  iconOpacity (after glitchSteps 75 2000 half 3)
  = last (history (after glitchSteps 75 2000 half 3)) 0%float.
Proof.
  apply (opacity_is_last_emitted glitchSteps 75 2000 half), reachable_after.
Defined.

Lemma last_In (l : list float) (v : float) : l <> [] -> In (last l v) l.
Proof.
  induction l as [|a l IH]; [congruence|]. intros _.
  destruct l as [|b l]; [left; reflexivity|].
  right. apply IH. discriminate.
Qed.

(** X3: when every step of the list is a number from 0 to 1, as the five
    steps of the source are, every opacity emitted is one, and so is the
    opacity on display at any time. *)
Theorem opacities_in_unit_interval
  (steps : list float) (d w : Z) (rnd : nat -> float) (s : State) :
  Forall (fun v => unitInterval v = true) steps ->
  reachable steps d w rnd s ->
  Forall (fun v => unitInterval v = true) (history s) /\
  unitInterval (iconOpacity s) = true.
Proof.
  intros Hsteps Hs.
  destruct (reachable_Ordered _ _ _ _ _ Hs) as (j & c & _ & Hh & _).
  assert (Hall : Forall (fun v => unitInterval v = true) (history s)).
  { rewrite Hh. apply Forall_app. split.
    - now apply Forall_bursts.
    - now apply Forall_firstn. }
  split; [exact Hall|].
  rewrite (reachable_shown _ _ _ _ _ Hs).
  destruct (history s) as [|a l] eqn:E; [reflexivity|].
  rewrite Forall_forall in Hall. apply Hall, last_In. discriminate.
Qed.

Lemma opacities_in_unit_interval_witness :
  Forall (fun v => unitInterval v = true)
         (history (after glitchSteps 75 2000 half 9)) /\
  unitInterval (iconOpacity (after glitchSteps 75 2000 half 9)) = true.
Proof.
  apply (opacities_in_unit_interval glitchSteps 75 2000 half).
  - repeat constructor.
  - apply reachable_after.
Defined.

(** X4: [Math.random()] is called once for each idle wait and for nothing
    else: in every state of the component's life the delays of the idle-wait
    timers set so far are those computed from the draws made so far, in
    order. *)
Theorem one_draw_per_idle_wait
  (steps : list float) (d w : Z) (rnd : nat -> float) (s : State) :
  reachable steps d w rnd s ->
  idleDelays (trace s)
  = map (fun i => Number.toLong (randomLoopInterval (rnd i)))
        (seq 0 (draws s)).
Proof. apply reachable_Drawn. Qed.

Lemma one_draw_per_idle_wait_witness :
  idleDelays (trace (after glitchSteps 75 2000 half 13))
  = map (fun i => Number.toLong (randomLoopInterval (half i)))
        (seq 0 (draws (after glitchSteps 75 2000 half 13))).
Proof.
  apply (one_draw_per_idle_wait glitchSteps 75 2000 half), reachable_after.
Defined.

(** X5: with a positive step interval and a list that is not empty the
    event loop settles at every deadline: some number of callbacks is
    enough, and more fuel gives the same state. *)
Theorem event_loop_settles
  (steps : list float) (d w : Z) (rnd : nat -> float) (T : Z) :
  0 < d -> steps <> [] ->
  exists k s,
    forall fuel, (k <= fuel)%nat ->
      run steps d rnd fuel T (mounted w) = Some s.
Proof. intros Hd Hne. now apply settles. Qed.

Lemma event_loop_settles_witness :
  exists k s,
    forall fuel, (k <= fuel)%nat ->
      run glitchSteps 75 half fuel 60000 (mounted 2000) = Some s.
Proof.
  apply (event_loop_settles glitchSteps 75 2000 half 60000);
    [lia | discriminate].
Defined.

(** X6: when the timers run on time, step [k] of burst [j] is emitted at
    the time [burstStart j + k * d]; the opacities emitted by then are [j]
    whole bursts and the steps up to [k]; and the one timer pending then is
    a step timer due [d] later. *)
Theorem step_times
  (steps : list float) (d w : Z) (rnd : nat -> float) (j k : nat) :
  0 < d -> steps <> [] -> (k < List.length steps)%nat ->
  let s := after steps d w rnd (firings steps j (S k)) in
  now s = burstStart steps d w rnd j + Z.of_nat k * d /\
  history s = bursts steps j ++ firstn (S k) steps /\
  map due (timers s) = [now s + d] /\
  map callback (timers s) = [AnimateNextStep].
Proof.
  intros Hd Hne Hk s.
  pose proof (clock_after steps d w rnd Hd Hne j k Hk) as Hnow. fold s in Hnow.
  destruct (after_InBurst steps d w rnd Hd Hne j (S k)) as [HI _]; [lia|].
  fold s in HI. destruct HI as (_ & Htm & _).
  split; [exact Hnow|]. split.
  - apply history_after; [assumption | assumption | lia].
  - rewrite Htm, Hnow. cbn [map due callback]. split; [|reflexivity].
    f_equal. lia.
Qed.

Lemma step_times_witness :
  let s := after glitchSteps 75 2000 half (firings glitchSteps 1 (S 2)) in
  now s = burstStart glitchSteps 75 2000 half 1 + Z.of_nat 2 * 75 /\
  history s = bursts glitchSteps 1 ++ firstn 3 glitchSteps /\
  map due (timers s) = [now s + 75] /\
  map callback (timers s) = [AnimateNextStep].
Proof.
  apply (step_times glitchSteps 75 2000 half 1 2);
    [lia | discriminate | cbn; lia].
Defined.

Lemma toLong_randomLoopInterval (r : float) :
  (0 <=? r)%float = true -> (r <? 1)%float = true ->
  1500 <= Number.toLong (randomLoopInterval r) <= 2500.
Proof.
  intros H0 H1.
  destruct (randomLoopInterval_shape r H0 H1) as (mz & ez & Hz & Hez & Hlo & Hhi).
  unfold Number.toLong. rewrite Hz.
  rewrite Z.shiftl_div_pow2 by lia.
  pose proof (Binary64.pow2_pos (- ez) ltac:(lia)) as Hp.
  assert (Hq : 1500 <= Z.pos mz / 2 ^ (- ez) <= 2500).
  { split.
    - apply Z.div_le_lower_bound; lia.
    - apply Z.div_le_upper_bound; lia. }
  unfold Number.toInt32.
  change (2 ^ 31) with 2147483648. change (2 ^ 32) with 4294967296.
  rewrite Z.mod_small by lia. lia.
Qed.

Lemma burstStart_range
  (steps : list float) (d w : Z) (rnd : nat -> float) (j : nat) :
  (forall i, (i < j)%nat ->
             (0 <=? rnd i)%float = true /\ (rnd i <? 1)%float = true) ->
  let cycle := Z.of_nat (List.length steps) * d in
  Z.max 0 w + Z.of_nat j * (cycle + 1500)
  <= burstStart steps d w rnd j
  <= Z.max 0 w + Z.of_nat j * (cycle + 2500).
Proof.
  intros Hr cycle. induction j as [|j IH]; [cbn [burstStart]; lia|].
  assert (Hp : 1500 <= pause rnd j <= 2500).
  { destruct (Hr j ltac:(lia)) as [H0 H1].
    pose proof (toLong_randomLoopInterval (rnd j) H0 H1).
    unfold pause. lia. }
  assert (IH' : Z.max 0 w + Z.of_nat j * (cycle + 1500)
                <= burstStart steps d w rnd j
                <= Z.max 0 w + Z.of_nat j * (cycle + 2500))
    by (apply IH; intros i Hi; apply Hr; lia).
  cbn [burstStart]. fold cycle. lia.
Qed.

(** X7: with a positive step interval, a list that is not empty, timers
    run on time and the draws of the first [j] idle waits from 0 and below
    1, the event loop emits step 0 of burst [j] no sooner than [j] bursts
    and [j] waits of 1500 ms after the warm-up and no later than with
    waits of 2500 ms: the callback that emits it runs at a time within
    these bounds; run to a deadline before the lower bound the loop has
    emitted [j] whole bursts at most; run to a deadline at the upper bound
    or after it the loop has emitted step 0 of burst [j]. *)
Theorem burst_start_bounds
  (steps : list float) (d w : Z) (rnd : nat -> float) (j : nat) :
  0 < d -> steps <> [] ->
  (forall i, (i < j)%nat ->
             (0 <=? rnd i)%float = true /\ (rnd i <? 1)%float = true) ->
  let n := List.length steps in
  let lo := Z.max 0 w + Z.of_nat j * (Z.of_nat n * d + 1500) in
  let hi := Z.max 0 w + Z.of_nat j * (Z.of_nat n * d + 2500) in
  let s := after steps d w rnd (firings steps j 1) in
  (history s = bursts steps j ++ firstn 1 steps /\ lo <= now s <= hi) /\
  (forall T, T < lo ->
     exists k s',
       (forall fuel, (k <= fuel)%nat ->
          run steps d rnd fuel T (mounted w) = Some s') /\
       (List.length (history s') <= j * n)%nat) /\
  (forall T, hi <= T ->
     exists k s',
       (forall fuel, (k <= fuel)%nat ->
          run steps d rnd fuel T (mounted w) = Some s') /\
       (j * n + 1 <= List.length (history s'))%nat).
Proof.
  intros Hd Hne Hr n lo hi s.
  pose proof (length_pos steps Hne) as Hlen. fold n in Hlen.
  pose proof (burstStart_range steps d w rnd j Hr) as Hb.
  cbn zeta in Hb. fold n in Hb. fold lo hi in Hb.
  split; [|split].
  - split.
    + apply history_after; [assumption | assumption | fold n; lia].
    + pose proof (clock_after steps d w rnd Hd Hne j 0 ltac:(fold n; lia)) as Hnow.
      fold s in Hnow. rewrite Hnow. lia.
  - intros T HT.
    destruct (settled steps d w rnd Hd Hne T) as (k & s' & Hrun & Hbefore & _).
    exists k, s'. split; [exact Hrun|]. apply Hbefore. lia.
  - intros T HT.
    destruct (settled steps d w rnd Hd Hne T) as (k & s' & Hrun & _ & Hafter).
    exists k, s'. split; [exact Hrun|]. apply Hafter. lia.
Qed.

Lemma burst_start_bounds_witness :
  let s := after glitchSteps 75 2000 half (firings glitchSteps 3 1) in
  (history s = bursts glitchSteps 3 ++ firstn 1 glitchSteps /\
   2000 + 3 * 1875 <= now s <= 2000 + 3 * 2875) /\
  (exists k s',
      (forall fuel, (k <= fuel)%nat ->
         run glitchSteps 75 half fuel 7000 (mounted 2000) = Some s') /\
      (List.length (history s') <= 15)%nat) /\
  (exists k s',
      (forall fuel, (k <= fuel)%nat ->
         run glitchSteps 75 half fuel 11000 (mounted 2000) = Some s') /\
      (16 <= List.length (history s'))%nat).
Proof.
  destruct (burst_start_bounds glitchSteps 75 2000 half 3)
    as (H1 & H2 & H3); [lia | discriminate | intros i _; split; reflexivity|].
  split; [exact H1|]. split; [apply H2 | apply H3]; cbn; lia.
Defined.

(** X8: when the effect runs again after its cleanup, as under React's
    strict mode, in whatever state the cleanup ran, the component is as
    after a first mount: the new warm-up timer is the only timer pending,
    at most one timer is pending from then on, and the new cleanup leaves
    none. *)
Theorem remount_is_safe
  (steps : list float) (d w : Z) (rnd : nat -> float) (s : State) (k : nat) :
  reachable steps d w rnd s ->
  let h := fst (remount w s) in
  let s' := snd (remount w s) in
  timers s' = [mkTimer h (now s + Z.max 0 w) StartAnimation] /\
  (List.length (timers (Nat.iter k (step steps d rnd) s')) <= 1)%nat /\
  timers (cleanup h (Nat.iter k (step steps d rnd) s')) = [].
Proof.
  intros Hs h s'.
  destruct (remount_spec steps d w rnd s Hs) as (Hh & Htm & Ht).
  fold h in Hh, Ht. fold s' in Htm, Ht.
  split; [rewrite Hh; exact Htm|].
  destruct (TidyFor_iter steps d rnd h s' k Ht) as [_ Hk].
  split.
  - destruct Hk as [-> | (t & -> & _)]; cbn; lia.
  - apply timers_cleanup. exact Hk.
Qed.

Lemma remount_is_safe_witness :
  let s := after glitchSteps 75 2000 half 3 in
  let h := fst (remount 2000 s) in
  let s' := snd (remount 2000 s) in
  timers s' = [mkTimer h (now s + Z.max 0 2000) StartAnimation] /\
  (List.length (timers (Nat.iter 8 (step glitchSteps 75 half) s')) <= 1)%nat /\
  timers (cleanup h (Nat.iter 8 (step glitchSteps 75 half) s')) = [].
Proof.
  apply (remount_is_safe glitchSteps 75 2000 half), reachable_after.
Defined.

(** X16: a timer is set when the callback before it runs, not when that
    one was due: however late the event loop runs a timer of the
    component, the timer its callback sets is due a whole delay after the
    time the callback ran, the step interval for a step timer, the idle
    wait drawn for an idle-wait timer. *)
Theorem next_timer_never_early
  (steps : list float) (d w : Z) (rnd : nat -> float) (s : State) (t : Timer) :
  reachable steps d w rnd s ->
  earliest (timers s) = Some t ->
  let s' := fire steps d rnd t s in
  now s' = Z.max (now s) (due t) /\
  exists t',
    timers s' = [t'] /\
    match callback t' with
    | AnimateNextStep => due t' = now s' + Z.max 0 d
    | RunFullGlitchSequence => due t' = now s' + pause rnd (draws s)
    | StartAnimation => False
    end.
Proof.
  intros Hs He s'.
  destruct (reachable_Tidy _ _ _ _ _ Hs) as [_ [Hnil | (u & Hu & _)]].
  - rewrite Hnil in He. discriminate.
  - apply (earliest_single _ _ _ Hu) in He. subst u.
    pose proof (clearTimeout_single t s Hu) as Hclr.
    subst s'. unfold fire.
    set (s0 := set_now (Z.max (now s) (due t)) (clearTimeout (handle t) s)).
    assert (Htm0 : timers s0 = []) by exact Hclr.
    assert (Hgen : forall x, timers x = [] -> now x = Z.max (now s) (due t) ->
                     draws x = draws s ->
                     now (animateNextStep steps d rnd x) = Z.max (now s) (due t) /\
                     exists t',
                       timers (animateNextStep steps d rnd x) = [t'] /\
                       match callback t' with
                       | AnimateNextStep =>
                           due t' = now (animateNextStep steps d rnd x) + Z.max 0 d
                       | RunFullGlitchSequence =>
                           due t' = now (animateNextStep steps d rnd x)
                                    + pause rnd (draws s)
                       | StartAnimation => False
                       end).
    { intros x Hx Hn Hdr.
      destruct (Nat.ltb_spec (currentStepInSequence x) (List.length steps)).
      - rewrite animateNextStep_emit by assumption. cbn [now timers].
        rewrite Hx. split; [exact Hn|]. eexists. split; [reflexivity|].
        reflexivity.
      - rewrite animateNextStep_idle by assumption. cbn [now timers].
        rewrite Hx, Hdr. split; [exact Hn|]. eexists. split; [reflexivity|].
        reflexivity. }
    destruct (callback t); cbn [call];
      unfold startAnimation, runFullGlitchSequence;
      apply Hgen; solve [exact Htm0 | reflexivity].
Qed.

Lemma next_timer_never_early_witness :
  (* the first step timer, due at 2075, runs at 2500 *)
  let s := tick 2500 (after glitchSteps 75 2000 half 1) in
  let t := mkTimer 2 2075 AnimateNextStep in
  let s' := fire glitchSteps 75 half t s in
  now s' = Z.max (now s) (due t) /\
  exists t',
    timers s' = [t'] /\
    match callback t' with
    | AnimateNextStep => due t' = now s' + Z.max 0 75
    | RunFullGlitchSequence => due t' = now s' + pause half (draws s)
    | StartAnimation => False
    end.
Proof.
  apply (next_timer_never_early glitchSteps 75 2000 half).
  - apply reach_tick, reachable_after.
  - reflexivity.
Defined.

End DemoName.

(** ** The scale of the model and the clear color of the renderer *)

Module App.

(** What [new THREE.Color(bgColor)] holds: the string it was made from. *)
Inductive Color : Type := MkColor (css : string).

(** The WebGL renderer, as far as [App] touches it. *)
Record Renderer : Type := mkRenderer { clearColor : Color }.

Definition setClearColor (c : Color) (gl : Renderer) : Renderer :=
  mkRenderer c.

Record State : Type := mkState {
  innerWidth : Z;                     (* window.innerWidth *)
  resizeListener : bool;              (* is handleResize registered? *)
  bgColor : string;                   (* the value of the control *)
  rendererRef : option Renderer;      (* useRef<WebGLRenderer | null>(null) *)
  modelScale : float                  (* useState(2.6) *)
}.

Definition setModelScale (v : float) (s : State) : State :=
  mkState (innerWidth s) (resizeListener s) (bgColor s) (rendererRef s) v.

(** Lines 132 to 135. *)
Definition handleResize (s : State) : State :=
  let isSmallScreen := innerWidth s <=? 768 in
  setModelScale (if isSmallScreen then 2.08%float else 2.6%float) s.

(** The effect of lines 125 to 129. *)
Definition bgColorEffect (s : State) : State :=
  match rendererRef s with
  | Some gl =>
      mkState (innerWidth s) (resizeListener s) (bgColor s)
              (Some (setClearColor (MkColor (bgColor s)) gl)) (modelScale s)
  | None => s
  end.

(** The effect of lines 138 to 145, and its cleanup. *)
Definition resizeEffect (s : State) : State :=
  let s1 := handleResize s in
  mkState (innerWidth s1) true (bgColor s1) (rendererRef s1) (modelScale s1).

Definition resizeCleanup (s : State) : State :=
  mkState (innerWidth s) false (bgColor s) (rendererRef s) (modelScale s).

(** [onCreated], lines 159 to 162, called with the renderer [gl]. *)
Definition onCreated (gl : Renderer) (s : State) : State :=
  mkState (innerWidth s) (resizeListener s) (bgColor s)
          (Some (setClearColor (MkColor (bgColor s)) gl)) (modelScale s).

(** The first render, in a window [w] wide: the control at its default. *)
Definition initial (w : Z) : State :=
  mkState w false "#ffffff"%string None 2.6%float.

Inductive Event : Type :=
| Mount                            (* the effects run for the first time *)
| Resize (w : Z)                   (* the window is resized to width w *)
| SetBgColor (c : string)          (* the control takes the value c *)
| Created (gl : Renderer)          (* the canvas has made its renderer *)
| Unmount.

Definition handle (e : Event) (s : State) : State :=
  match e with
  | Mount => resizeEffect (bgColorEffect s)
  | Resize w =>
      let s1 := mkState w (resizeListener s) (bgColor s) (rendererRef s)
                        (modelScale s) in
      if resizeListener s1 then handleResize s1 else s1
  | SetBgColor c =>
      let s1 := mkState (innerWidth s) (resizeListener s) c (rendererRef s)
                        (modelScale s) in
      (* the effect depends on [bgColor]: it runs when the value is new *)
      if String.eqb c (bgColor s) then s1 else bgColorEffect s1
  | Created gl => onCreated gl s
  | Unmount => resizeCleanup s
  end.

Definition exec (evs : list Event) (s : State) : State :=
  fold_left (fun s e => handle e s) evs s.


(** Is the event the creation of a renderer? *)
Definition isCreated (e : Event) : bool :=
  match e with
  | Created _ => true
  | _ => false
  end.

(** *** The scale *)

Lemma exec_snoc (evs : list Event) (e : Event) (s : State) :
  exec (evs ++ [e]) s = handle e (exec evs s).
Proof. unfold exec. now rewrite fold_left_app. Qed.




(** C10: the scale is 2.6 at the first render, and after any events it is
    2.08 or 2.6. *)
Theorem scale_two_values (evs : list Event) (w0 : Z) :
  modelScale (initial w0) = 2.6%float /\
  (modelScale (exec evs (initial w0)) = 2.08%float \/
   modelScale (exec evs (initial w0)) = 2.6%float).
Proof.
  split; [reflexivity|].
  induction evs as [|e evs IH] using rev_ind; [right; reflexivity|].
  rewrite exec_snoc. set (s := exec evs (initial w0)) in *.
  destruct e as [|w|c|gl|]; cbn [handle].
  - unfold bgColorEffect. destruct (rendererRef s); cbn;
      destruct (innerWidth s <=? 768); auto.
  - cbn [resizeListener]. destruct (resizeListener s); cbn; [|exact IH].
    destruct (w <=? 768); auto.
  - destruct (String.eqb c (bgColor s)); unfold bgColorEffect; cbn;
      [|destruct (rendererRef s); cbn]; exact IH.
  - exact IH.
  - exact IH.
Qed.

(** *** The clear color *)

Lemma exec_app (evs1 evs2 : list Event) (s : State) :
  exec (evs1 ++ evs2) s = exec evs2 (exec evs1 s).
Proof. unfold exec. apply fold_left_app. Qed.

Lemma renderer_kept (evs : list Event) (s : State) :
  rendererRef s <> None -> rendererRef (exec evs s) <> None.
Proof.
  revert s. induction evs as [|e evs IH]; intros s Hs; [exact Hs|].
  unfold exec. cbn [fold_left]. apply IH.
  destruct e as [|w|c|gl|]; cbn [handle].
  - unfold bgColorEffect. destruct (rendererRef s); cbn; congruence.
  - cbn [resizeListener]. destruct (resizeListener s); exact Hs.
  - destruct (String.eqb c (bgColor s)); [exact Hs|].
    unfold bgColorEffect. cbn. destruct (rendererRef s); cbn; congruence.
  - cbn. discriminate.
  - exact Hs.
Qed.

Lemma clear_color_invariant (evs : list Event) (w0 : Z) (gl : Renderer) :
  rendererRef (exec evs (initial w0)) = Some gl ->
  clearColor gl = MkColor (bgColor (exec evs (initial w0))).
Proof.
  revert gl. induction evs as [|e evs IH] using rev_ind; [discriminate|].
  rewrite exec_snoc. set (s := exec evs (initial w0)) in *.
  intros gl.
  destruct e as [|w|c|g|]; cbn [handle].
  - unfold bgColorEffect. destruct (rendererRef s) as [g|] eqn:Er; cbn;
      rewrite ?Er; [|discriminate]. intros [= <-]. reflexivity.
  - cbn [resizeListener]. destruct (resizeListener s); cbn; apply IH.
  - destruct (String.eqb_spec c (bgColor s)) as [-> | N]; cbn; [apply IH|].
    unfold bgColorEffect. cbn. destruct (rendererRef s) as [g|] eqn:Er; cbn;
      rewrite ?Er; [|discriminate]. intros [= <-]. reflexivity.
  - cbn. intros [= <-]. reflexivity.
  - cbn. apply IH.
Qed.

(** C9: when the canvas has created its renderer, [rendererRef] holds it
    with the clear color made from the current value of the control; from
    then on, after any events, [rendererRef] holds a renderer whose clear
    color is the one made from the current value of the control, and after
    a change of the control that is the value just given: the last write
    wins. Before the canvas has created a renderer there is none to hold a
    color. *)
Theorem clear_color_last_write (evs : list Event) (w0 : Z) :
  (forall gl, rendererRef (exec evs (initial w0)) = Some gl ->
              clearColor gl = MkColor (bgColor (exec evs (initial w0)))) /\
  (forall c, bgColor (exec (evs ++ [SetBgColor c]) (initial w0)) = c) /\
  (forall c gl, rendererRef (exec evs (initial w0)) = Some gl ->
     rendererRef (exec (evs ++ [SetBgColor c]) (initial w0))
     = Some (mkRenderer (MkColor c))) /\
  (forall gl,
     rendererRef (exec (evs ++ [Created gl]) (initial w0))
     = Some (mkRenderer (MkColor (bgColor (exec evs (initial w0)))))) /\
  (forall gl evs',
     rendererRef (exec (evs ++ Created gl :: evs') (initial w0))
     = Some (mkRenderer
               (MkColor (bgColor (exec (evs ++ Created gl :: evs')
                                       (initial w0)))))) /\
  (forall gl evs' c,
     rendererRef (exec (evs ++ Created gl :: evs' ++ [SetBgColor c])
                       (initial w0))
     = Some (mkRenderer (MkColor c))).
Proof.
  assert (Hset : forall l c, bgColor (exec (l ++ [SetBgColor c]) (initial w0)) = c).
  { intros l c. rewrite exec_snoc. cbn [handle].
    destruct (String.eqb c _); [reflexivity|].
    unfold bgColorEffect. cbn. destruct (rendererRef _); reflexivity. }
  assert (Hheld : forall gl evs',
             rendererRef (exec (evs ++ Created gl :: evs') (initial w0))
             = Some (mkRenderer
                       (MkColor (bgColor (exec (evs ++ Created gl :: evs')
                                               (initial w0)))))).
  { intros gl evs'.
    assert (Hsome : rendererRef (exec (evs ++ Created gl :: evs') (initial w0))
                    <> None).
    { change (Created gl :: evs') with ([Created gl] ++ evs').
      rewrite app_assoc, exec_app. apply renderer_kept.
      rewrite exec_snoc. cbn. discriminate. }
    destruct (rendererRef (exec (evs ++ Created gl :: evs') (initial w0)))
      as [r|] eqn:Er; [|congruence].
    pose proof (clear_color_invariant _ _ _ Er) as Hc.
    destruct r as [col]. cbn in Hc. now rewrite Hc. }
  split; [apply clear_color_invariant|]. split; [apply Hset|]. split; [|split; [|split]].
  - intros c gl Hgl. rewrite exec_snoc. cbn [handle].
    destruct (String.eqb_spec c (bgColor (exec evs (initial w0)))) as [E | N].
    + cbn. rewrite Hgl. f_equal. destruct gl as [col].
      f_equal. rewrite E. apply (clear_color_invariant evs _ _ Hgl).
    + unfold bgColorEffect. cbn. rewrite Hgl. reflexivity.
  - intros gl. rewrite exec_snoc. reflexivity.
  - exact Hheld.
  - intros gl evs' c.
    rewrite app_comm_cons, app_assoc.
    destruct (rendererRef (exec (evs ++ Created gl :: evs') (initial w0)))
      as [r|] eqn:Er; [|rewrite Hheld in Er; discriminate].
    rewrite exec_snoc. cbn [handle].
    set (s := exec (evs ++ Created gl :: evs') (initial w0)) in *.
    destruct (String.eqb_spec c (bgColor s)) as [E | N].
    + cbn. fold s in Er. rewrite Er. f_equal.
      pose proof (Hheld gl evs') as Hh. fold s in Hh. rewrite Er in Hh.
      injection Hh as ->. now rewrite E.
    + unfold bgColorEffect. cbn. rewrite Er. reflexivity.
Qed.

Lemma clear_color_last_write_witness :
  rendererRef
    (exec ([Mount; Created (mkRenderer (MkColor "#000000"));
            SetBgColor "#00ff00"] ++ [SetBgColor "#ff0000"])
          (initial 1024))
  = Some (mkRenderer (MkColor "#ff0000")).
Proof.
  apply (proj1 (proj2 (proj2 (clear_color_last_write
                                [Mount; Created (mkRenderer (MkColor "#000000"));
                                 SetBgColor "#00ff00"] 1024)))
               "#ff0000"%string (mkRenderer (MkColor "#00ff00"))).
  reflexivity.
Defined.

(** *** Further properties of [App] *)

Lemma resizes_unheard (ws : list Z) (s : State) :
  resizeListener s = false ->
  modelScale (exec (map Resize ws) s) = modelScale s /\
  resizeListener (exec (map Resize ws) s) = false.
Proof.
  revert s. induction ws as [|w ws IH]; intros s Hl; [split; [reflexivity | exact Hl]|].
  cbn [map]. unfold exec. cbn [fold_left]. fold (exec (map Resize ws)).
  cbn [handle resizeListener]. rewrite Hl.
  destruct (IH (mkState w false (bgColor s) (rendererRef s) (modelScale s))
               eq_refl) as [H1 H2].
  split; [exact H1 | exact H2].
Qed.

(** X9: once the cleanup has removed the listener, resizing the window no
    longer changes the scale, however often and to whatever widths. *)
Theorem no_resize_after_unmount (ws : list Z) (s : State) :
  modelScale (exec (map Resize ws) (handle Unmount s)) = modelScale s.
Proof. now destruct (resizes_unheard ws (handle Unmount s) eq_refl). Qed.

(** X10: of two resizes in a row only the second counts: the state is the
    one the second alone would have given. *)
Theorem last_resize_wins (w1 w2 : Z) (s : State) :
  handle (Resize w2) (handle (Resize w1) s) = handle (Resize w2) s.
Proof.
  cbn [handle resizeListener].
  destruct (resizeListener s) eqn:El; cbn; rewrite ?El; reflexivity.
Qed.

(** X11: a resize and a change of the background color do not interfere:
    in either order they give the same state. *)
Theorem resize_and_color_commute (w : Z) (c : string) (s : State) :
  handle (Resize w) (handle (SetBgColor c) s)
  = handle (SetBgColor c) (handle (Resize w) s).
Proof.
  cbn [handle resizeListener bgColor].
  destruct (resizeListener s) eqn:El, (String.eqb c (bgColor s)) eqn:Ec,
           (rendererRef s) eqn:Er;
    unfold bgColorEffect, handleResize, setModelScale; cbn;
    rewrite ?El, ?Ec, ?Er; cbn; rewrite ?El, ?Ec, ?Er; reflexivity.
Qed.

Lemma renderer_not_made (evs : list Event) (s : State) :
  rendererRef s = None -> forallb (fun e => negb (isCreated e)) evs = true ->
  rendererRef (exec evs s) = None.
Proof.
  revert s. induction evs as [|e evs IH]; intros s Hs He; [exact Hs|].
  cbn [forallb] in He. apply andb_prop in He as [He1 He2].
  unfold exec. cbn [fold_left]. apply IH; [|exact He2].
  destruct e as [|w|c|gl|]; cbn [handle]; try discriminate.
  - unfold bgColorEffect. rewrite Hs. exact Hs.
  - cbn [resizeListener]. destruct (resizeListener s); exact Hs.
  - destruct (String.eqb c (bgColor s)); [exact Hs|].
    unfold bgColorEffect. cbn. rewrite Hs. reflexivity.
  - exact Hs.
Qed.

(** X12: the effect of the background color never makes a renderer and no
    event loses one: as long as the canvas has created none, color changes,
    resizes, mounting and unmounting leave [rendererRef] null, and once it
    holds a renderer it holds one for good. *)
Theorem renderer_guard (evs : list Event) (s : State) :
  (rendererRef s = None ->
   forallb (fun e => negb (isCreated e)) evs = true ->
   rendererRef (exec evs s) = None) /\
  (rendererRef s <> None -> rendererRef (exec evs s) <> None).
Proof. split; [apply renderer_not_made | apply renderer_kept]. Qed.

Lemma renderer_guard_witness :
  rendererRef (exec [Mount; SetBgColor "#000000"; Resize 500; Unmount]
                    (initial 1024)) = None /\
  rendererRef (exec [SetBgColor "#000000"; Unmount]
                    (exec [Mount; Created (mkRenderer (MkColor "#123456"))]
                          (initial 1024))) <> None.
Proof.
  split.
  - apply (proj1 (renderer_guard _ _)); reflexivity.
  - apply (proj2 (renderer_guard _ _)). discriminate.
Defined.

(** X13: a wider window never gets a smaller scale. *)
Theorem scale_monotone (s1 s2 : State) :
  innerWidth s1 <= innerWidth s2 ->
  (modelScale (handleResize s1) <=? modelScale (handleResize s2))%float = true.
Proof.
  intros Hw. unfold handleResize, setModelScale. cbn [modelScale].
  destruct (Z.leb_spec (innerWidth s1) 768), (Z.leb_spec (innerWidth s2) 768);
    try reflexivity. lia.
Qed.

Lemma scale_monotone_witness :
  (modelScale (handleResize (initial 768))
   <=? modelScale (handleResize (initial 769)))%float = true.
Proof. apply scale_monotone. cbn. lia. Defined.

End App.

(** ** The first mesh of the asset *)

Module Helmet.

(** The classes of the objects of a loaded scene; [SkinnedMesh] and
    [InstancedMesh] extend [Mesh]. *)
Inductive Class : Type :=
| Object3D | Group | Bone | Camera | Light
| Mesh | SkinnedMesh | InstancedMesh.

Record Node : Type := mkNode { class : Class; uuid : nat }.

(** [o instanceof THREE.Mesh]. *)
Definition instanceofMesh (o : Node) : bool :=
  match class o with
  | Mesh | SkinnedMesh | InstancedMesh => true
  | _ => false
  end.

(** The [nodes] of the loaded asset: an object from names to nodes, given by
    its entries in the order [for ... in] visits them. *)
Definition Nodes : Type := list (string * Node).

(** What the component renders: a group around one primitive. *)
Record Primitive : Type := mkPrimitive {
  object : Node;
  castShadow : bool;
  materialRoughness : float;
  position : float * float * float;
  rotation : float * float * float;
  scale : float
}.

Record Element (Props : Type) : Type := mkGroup {
  props : Props;
  child : Primitive
}.

Arguments mkGroup {Props}.
Arguments props {Props}.
Arguments child {Props}.

(** The loop of lines 16 to 22. *)
Fixpoint firstMesh (nodes : Nodes) : option Node :=
  match nodes with
  | [] => None
  | (nodeName, o) :: rest =>
      if instanceofMesh o then Some o else firstMesh rest
  end.

(** The component: what it returns, [None] for [null], and what it writes
    with [console.warn]. *)
Definition Helmet {Props : Type} (p : Props) (nodes : Nodes)
  : option (Element Props) * list string :=
  match firstMesh nodes with
  | None => (None, ["No mesh found in elegant_g.glb"%string])
  | Some m =>
      (Some (mkGroup p (mkPrimitive m true 0.15%float
                                    (0, 0, 0)%float (0, 0, 0)%float 1%float)),
       [])
  end.

Definition noMesh (nodes : Nodes) : bool :=
  forallb (fun e => negb (instanceofMesh (snd e))) nodes.

Lemma firstMesh_none (nodes : Nodes) :
  noMesh nodes = true -> firstMesh nodes = None.
Proof.
  induction nodes as [|[name o] rest IH]; [reflexivity|].
  cbn. destruct (instanceofMesh o); cbn; [discriminate | exact IH].
Qed.

Lemma firstMesh_some (before rest : Nodes) (name : string) (m : Node) :
  noMesh before = true -> instanceofMesh m = true ->
  firstMesh (before ++ (name, m) :: rest) = Some m.
Proof.
  intros Hb Hm. induction before as [|[name' o] before IH]; cbn.
  - now rewrite Hm.
  - cbn in Hb. destruct (instanceofMesh o); cbn in Hb; [discriminate|].
    now apply IH.
Qed.

(** C8: when no node of the asset is a mesh the component returns [null],
    so that nothing is rendered, and warns once; when some node is a mesh it
    renders the first such node and warns of nothing. It returns in either
    case. *)
Theorem helmet_first_mesh {Props : Type} (p : Props) (nodes : Nodes) :
  (noMesh nodes = true ->
   Helmet p nodes = (None, ["No mesh found in elegant_g.glb"%string])) /\
  (forall before name m rest,
      nodes = before ++ (name, m) :: rest ->
      noMesh before = true -> instanceofMesh m = true ->
      exists el, Helmet p nodes = (Some el, []) /\ object (child el) = m) /\
  (noMesh nodes = true \/
   exists before name m rest,
     nodes = before ++ (name, m) :: rest /\
     noMesh before = true /\ instanceofMesh m = true).
Proof.
  split; [|split].
  - intros Hn. unfold Helmet. now rewrite firstMesh_none.
  - intros before name m rest -> Hb Hm. unfold Helmet.
    rewrite (firstMesh_some _ _ _ _ Hb Hm). eexists. split; reflexivity.
  - induction nodes as [|[name o] rest IH]; [left; reflexivity|].
    destruct (instanceofMesh o) eqn:Eo.
    + right. exists [], name, o, rest. repeat split. exact Eo.
    + destruct IH as [Hn | (before & name' & m & rest' & -> & Hb & Hm)].
      * left. cbn. now rewrite Eo.
      * right. exists ((name, o) :: before), name', m, rest'.
        repeat split; [|exact Hm]. cbn. now rewrite Eo.
Qed.

Lemma helmet_first_mesh_witness :
  Helmet tt [("Scene"%string, mkNode Group 0); ("Armature"%string, mkNode Bone 1)]
  = (None, ["No mesh found in elegant_g.glb"%string]) /\
  exists el,
    Helmet tt [("Scene"%string, mkNode Group 0); ("G"%string, mkNode Mesh 1);
               ("G001"%string, mkNode Mesh 2)]
    = (Some el, []) /\ object (child el) = mkNode Mesh 1.
Proof.
  split.
  - apply (proj1 (helmet_first_mesh tt _)). reflexivity.
  - apply (proj1 (proj2 (helmet_first_mesh tt _))
             [("Scene"%string, mkNode Group 0)] "G"%string (mkNode Mesh 1)
             [("G001"%string, mkNode Mesh 2)]); reflexivity.
Defined.

(** *** Further properties of [Helmet] *)

(** X14: with the nodes taken in the order [for ... in] visits them, an
    order their keys fix, the mesh found is the first entry that is a mesh:
    the entries that are no mesh, wherever they stand, and all the entries
    after the first mesh make no difference to what the component
    returns. *)
Theorem first_mesh_only (Props : Type) (p : Props) (nodes : Nodes) :
  firstMesh nodes
  = option_map snd (hd_error (filter (fun e => instanceofMesh (snd e)) nodes)) /\
  Helmet p nodes
  = Helmet p (firstn 1 (filter (fun e => instanceofMesh (snd e)) nodes)).
Proof.
  split.
  - induction nodes as [|[name o] rest IH]; [reflexivity|].
    cbn. destruct (instanceofMesh o) eqn:Eo; [reflexivity | exact IH].
  - unfold Helmet. f_equal.
    induction nodes as [|[name o] rest IH]; [reflexivity|].
    cbn. destruct (instanceofMesh o) eqn:Eo; [cbn; now rewrite Eo | exact IH].
Qed.

Lemma firstMesh_sound (nodes : Nodes) (m : Node) :
  firstMesh nodes = Some m ->
  instanceofMesh m = true /\ In m (map snd nodes).
Proof.
  induction nodes as [|[name o] rest IH]; [discriminate|].
  cbn. destruct (instanceofMesh o) eqn:Eo.
  - intros [= <-]. split; [exact Eo | left; reflexivity].
  - intros H. destruct (IH H) as [H1 H2]. split; [exact H1 | right; exact H2].
Qed.

Lemma firstMesh_none_inv (nodes : Nodes) :
  firstMesh nodes = None -> noMesh nodes = true.
Proof.
  induction nodes as [|[name o] rest IH]; [reflexivity|].
  cbn. destruct (instanceofMesh o); [discriminate|]. exact IH.
Qed.

(** X15: what the component renders is a mesh and one of the asset's
    nodes, in a group that carries the caller's props, and then it warns of
    nothing; it returns [null] only for an asset without mesh, and then it
    warns. *)
Theorem helmet_sound (Props : Type) (p : Props) (nodes : Nodes) :
  (forall el w,
      Helmet p nodes = (Some el, w) ->
      instanceofMesh (object (child el)) = true /\
      In (object (child el)) (map snd nodes) /\
      props el = p /\ w = []) /\
  (forall w,
      Helmet p nodes = (None, w) ->
      noMesh nodes = true /\ w = ["No mesh found in elegant_g.glb"%string]).
Proof.
  unfold Helmet. destruct (firstMesh nodes) as [m|] eqn:Em; split.
  - intros el w [= <- <-]. cbn.
    destruct (firstMesh_sound nodes m Em) as [H1 H2]. repeat split; assumption.
  - discriminate.
  - discriminate.
  - intros w [= <-]. split; [now apply firstMesh_none_inv | reflexivity].
Qed.

Lemma helmet_sound_witness :
  let nodes := [("Scene"%string, mkNode Group 0); ("G"%string, mkNode Mesh 1);
                ("G001"%string, mkNode SkinnedMesh 2)] in
  let el := mkGroup tt (mkPrimitive (mkNode Mesh 1) true 0.15%float
                                    (0, 0, 0)%float (0, 0, 0)%float 1%float) in
  instanceofMesh (object (child el)) = true /\
  In (object (child el)) (map snd nodes) /\
  props el = tt /\ @nil string = [].
Proof.
  intros nodes el.
  apply (proj1 (helmet_sound unit tt nodes) el []). reflexivity.
Defined.

End Helmet.
